(** * Monitorism: the event matcher and the per-tick monitor loops

    A shallow embedding of the Go sources of three monitors

    - [global_events]       (signature canonicalisation, topic hashing,
                             address scoping, the log scan of one tick),
    - [liveness_expiration] (the owner liveness poll),
    - [tipmon]              (the tip lag poll),

    together with the parts of the Go standard library and of go-ethereum
    they call ([regexp], [strings], [unicode/utf8], legacy Keccak-256). *)

From Stdlib Require Import ZArith Ascii String Lia.
From stdpp Require Import base list gmap strings.

Local Open Scope Z_scope.

(** A Go string is an immutable sequence of bytes. *)
Abbreviation gostring := (list ascii) (only parsing).

Definition bytes (s : string) : gostring := list_ascii_of_string s.
Definition byteval (c : ascii) : Z := Z.of_N (N_of_ascii c).
Definition byteof (z : Z) : ascii := ascii_of_N (Z.to_N (z mod 256)).

(** ** Package [unicode/utf8] and [unicode] *)
Module utf8.

Definition RuneError : Z := 65533.

Definition cont (b : Z) : bool := (128 <=? b) && (b <=? 191).

(** The table [first] with [acceptRanges]: for a leading byte, the size of
    the encoding and the range allowed for the second byte. *)
Definition first (p0 : Z) : option (nat * Z * Z) :=
  if (194 <=? p0) && (p0 <=? 223) then Some (2%nat, 128, 191)
  else if p0 =? 224 then Some (3%nat, 160, 191)
  else if (225 <=? p0) && (p0 <=? 236) then Some (3%nat, 128, 191)
  else if p0 =? 237 then Some (3%nat, 128, 159)
  else if (238 <=? p0) && (p0 <=? 239) then Some (3%nat, 128, 191)
  else if p0 =? 240 then Some (4%nat, 144, 191)
  else if (241 <=? p0) && (p0 <=? 243) then Some (4%nat, 128, 191)
  else if p0 =? 244 then Some (4%nat, 128, 143)
  else None.

(** [DecodeRuneInString]: the first rune of [s] and its width in bytes; an
    encoding that is not valid yields [(RuneError, 1)], the empty string
    [(RuneError, 0)]. *)
Definition DecodeRuneInString (s : gostring) : Z * nat :=
  match s with
  | [] => (RuneError, 0%nat)
  | c0 :: s1 =>
    let p0 := byteval c0 in
    if p0 <? 128 then (p0, 1%nat)
    else match first p0 with
    | None => (RuneError, 1%nat)
    | Some (sz, lo, hi) =>
      match s1 with
      | [] => (RuneError, 1%nat)
      | c1 :: s2 =>
        let b1 := byteval c1 in
        if (b1 <? lo) || (hi <? b1) then (RuneError, 1%nat)
        else if (sz <=? 2)%nat then
          (Z.lor (Z.shiftl (Z.land p0 31) 6) (Z.land b1 63), 2%nat)
        else match s2 with
        | [] => (RuneError, 1%nat)
        | c2 :: s3 =>
          let b2 := byteval c2 in
          if negb (cont b2) then (RuneError, 1%nat)
          else if (sz <=? 3)%nat then
            (Z.lor (Z.shiftl (Z.land p0 15) 12)
               (Z.lor (Z.shiftl (Z.land b1 63) 6) (Z.land b2 63)), 3%nat)
          else match s3 with
          | [] => (RuneError, 1%nat)
          | c3 :: _ =>
            let b3 := byteval c3 in
            if negb (cont b3) then (RuneError, 1%nat)
            else
              (Z.lor (Z.shiftl (Z.land p0 7) 18)
                 (Z.lor (Z.shiftl (Z.land b1 63) 12)
                    (Z.lor (Z.shiftl (Z.land b2 63) 6) (Z.land b3 63))),
               4%nat)
          end
        end
      end
    end
  end.

(** [for i, r := range s]: the runes of [s] in order, each with the bytes
    that encode it.  [skip] counts the bytes of the current rune that are
    still to be passed over. *)
Fixpoint rangeFrom (skip : nat) (s : gostring) : list (Z * gostring) :=
  match s with
  | [] => []
  | _ :: s' =>
    match skip with
    | S k => rangeFrom k s'
    | O => let '(r, w) := DecodeRuneInString s in
           (r, take w s) :: rangeFrom (w - 1) s'
    end
  end.

Definition range (s : gostring) : list (Z * gostring) := rangeFrom 0 s.

(** [unicode.IsSpace]: the Latin-1 cases, then the table [White_Space]. *)
Definition IsSpace (r : Z) : bool :=
  if r <=? 255 then
    (r =? 9) || (r =? 10) || (r =? 11) || (r =? 12) || (r =? 13)
    || (r =? 32) || (r =? 133) || (r =? 160)
  else
    (r =? 5760) || ((8192 <=? r) && (r <=? 8202)) || (r =? 8232)
    || (r =? 8233) || (r =? 8239) || (r =? 8287) || (r =? 12288).

End utf8.

(** ** Package [strings] *)
Module strings.

(** [strings.Split(s, sep)] for a separator of one byte. *)
Fixpoint Split (s : gostring) (sep : ascii) : list gostring :=
  match s with
  | [] => [[]]
  | c :: s' =>
    if decide (c = sep) then [] :: Split s' sep
    else match Split s' sep with
         | f :: fs => (c :: f) :: fs
         | [] => [[c]]
         end
  end.

(** [strings.Join(elems, sep)]. *)
Fixpoint Join (elems : list gostring) (sep : gostring) : gostring :=
  match elems with
  | [] => []
  | [e] => e
  | e :: es => e ++ sep ++ Join es sep
  end.

(** [strings.FieldsFunc]: the loop over [range s], where [cur] holds the
    bytes of the field being read (the span from [start], which is open
    exactly when [cur] is not empty). *)
Fixpoint fieldsLoop (f : Z → bool) (cur : gostring)
    (rs : list (Z * gostring)) : list gostring :=
  match rs with
  | [] => match cur with [] => [] | _ => [cur] end
  | (r, bs) :: rs' =>
    if f r then
      match cur with
      | [] => fieldsLoop f [] rs'
      | _ => cur :: fieldsLoop f [] rs'
      end
    else fieldsLoop f (cur ++ bs) rs'
  end.

(** The runes [rs] still to be read are none, or start with a rune that
    [f] accepts. *)
Definition spaceHead (f : Z → bool) (rs : list (Z * gostring)) : Prop :=
  match rs with
  | rb :: _ => f rb.1 = true
  | [] => True
  end.

Definition FieldsFunc (s : gostring) (f : Z → bool) : list gostring :=
  fieldsLoop f [] (utf8.range s).

(** [strings.Fields]: its ASCII fast path computes the same fields as
    [FieldsFunc(s, unicode.IsSpace)], which it calls otherwise. *)
Definition Fields (s : gostring) : list gostring :=
  FieldsFunc s utf8.IsSpace.

(** The table [asciiSpace] of the package: tab, line feed, vertical tab,
    form feed, carriage return and space. *)
Definition asciiSpace (c : ascii) : bool :=
  let b := byteval c in
  (b =? 9) || (b =? 10) || (b =? 11) || (b =? 12) || (b =? 13) || (b =? 32).

End strings.

(** ** Package [regexp], for patterns that are a sequence of character
    classes, each taken once or repeated greedily, some of them captured *)
Module regexp.

Inductive rep := One | Star | Plus.

Record atom := Atom { class : ascii → bool; times : rep; captured : bool }.

(** Perl classes of RE2: [\w] is [0-9A-Za-z_], [\s] is [\t\n\f\r ].  The
    classes below are sets of ASCII characters or the complement of one:
    on them, matching byte by byte and matching rune by rune, as the
    package does, accept the same texts with the same groups. *)
Definition perl_w (c : ascii) : bool :=
  let b := byteval c in
  ((48 <=? b) && (b <=? 57)) || ((65 <=? b) && (b <=? 90))
  || ((97 <=? b) && (b <=? 122)) || (b =? 95).

Definition perl_s (c : ascii) : bool :=
  let b := byteval c in
  (b =? 9) || (b =? 10) || (b =? 12) || (b =? 13) || (b =? 32).

Definition lit (x : ascii) (c : ascii) : bool := bool_decide (c = x).
Definition notlit (x : ascii) (c : ascii) : bool := negb (lit x c).

(** The longest prefix of [s] inside the class. *)
Fixpoint run (cl : ascii → bool) (s : gostring) : nat :=
  match s with
  | c :: s' => if cl c then S (run cl s') else 0%nat
  | [] => 0%nat
  end.

(** The least number of bytes that a class read [t] times consumes. *)
Definition lo_of (t : rep) : nat :=
  match t with Star => 0%nat | _ => 1%nat end.

(** Greedy choice with backtracking: [k] consumed bytes are tried for
    [k = n, n-1, ..., lo]; the first that lets the rest match wins. *)
Fixpoint attempts {A} (f : nat → option A) (lo n : nat) : option A :=
  if (n <? lo)%nat then None
  else match f n with
       | Some r => Some r
       | None => match n with
                 | O => None
                 | S n' => attempts f lo n'
                 end
       end.

(** Match the pattern at the start of [s]: the captured groups and the
    unread rest. *)
Fixpoint matchHere (p : list atom) (s : gostring)
    : option (list gostring * gostring) :=
  match p with
  | [] => Some ([], s)
  | a :: p' =>
    let n := run (class a) s in
    let lo := match times a with Star => 0%nat | _ => 1%nat end in
    let hi := match times a with One => Nat.min 1 n | _ => n end in
    attempts
      (fun k =>
         match matchHere p' (drop k s) with
         | Some (caps, rest) =>
           Some (if captured a then take k s :: caps else caps, rest)
         | None => None
         end)
      lo hi
  end.

(** [FindStringSubmatch]: the leftmost match, as the matched text followed
    by the captured groups; [nil] when nothing matches. *)
Fixpoint FindStringSubmatch (p : list atom) (s : gostring) : list gostring :=
  match matchHere p s with
  | Some (caps, rest) => take (length s - length rest) s :: caps
  | None => match s with
            | [] => []
            | _ :: s' => FindStringSubmatch p s'
            end
  end.

End regexp.

(** ** go-ethereum [crypto] and [common]: legacy Keccak-256, hashes and
    addresses *)
Module crypto.

Definition mask64 : Z := 18446744073709551615.

Definition rotl (v n : Z) : Z :=
  Z.land (Z.lor (Z.shiftl v n) (Z.shiftr v (64 - n))) mask64.

(** The state of Keccak-f[1600]: 25 lanes of 64 bits, lane [(x, y)] at
    index [x + 5 y]. *)
Definition lane (A : list Z) (x y : nat) : Z :=
  default 0 (A !! (x mod 5 + 5 * (y mod 5))%nat).

Definition build (f : nat → nat → Z) : list Z :=
  map (fun i => f (i mod 5)%nat (i / 5)%nat) (seq 0 25).

Definition rotc : list Z :=
  [ 0;  1; 62; 28; 27;
   36; 44;  6; 55; 20;
    3; 10; 43; 25; 39;
   41; 45; 15; 21;  8;
   18;  2; 61; 56; 14].

Definition RC : list Z :=
  [ 0x0000000000000001; 0x0000000000008082; 0x800000000000808A;
    0x8000000080008000; 0x000000000000808B; 0x0000000080000001;
    0x8000000080008081; 0x8000000000008009; 0x000000000000008A;
    0x0000000000000088; 0x0000000080008009; 0x000000008000000A;
    0x000000008000808B; 0x800000000000008B; 0x8000000000008089;
    0x8000000000008003; 0x8000000000008002; 0x8000000000000080;
    0x000000000000800A; 0x800000008000000A; 0x8000000080008081;
    0x8000000000008080; 0x0000000080000001; 0x8000000080008008 ].

Definition theta (A : list Z) : list Z :=
  let C := map (fun x => foldr Z.lxor 0 (map (lane A x) (seq 0 5)))
               (seq 0 5) in
  let col x := default 0 (C !! (x mod 5)%nat) in
  let D := map (fun x => Z.lxor (col (x + 4)%nat) (rotl (col (x + 1)%nat) 1))
               (seq 0 5) in
  build (fun x y => Z.lxor (lane A x y) (default 0 (D !! x))).

(** rho and pi: lane [(x, y)] is rotated and moved to [(y, 2x + 3y)]; read
    backwards, the new lane [(X, Y)] comes from [(X + 3Y, X)]. *)
Definition rhopi (A : list Z) : list Z :=
  build (fun X Y =>
           let x := ((X + 3 * Y) mod 5)%nat in
           rotl (lane A x X) (lane rotc x X)).

Definition chi (B : list Z) : list Z :=
  build (fun x y =>
           Z.lxor (lane B x y)
             (Z.land (Z.lxor (lane B (x + 1) y) mask64) (lane B (x + 2) y))).

Definition iota (rc : Z) (A : list Z) : list Z :=
  match A with
  | a :: A' => Z.lxor a rc :: A'
  | [] => []
  end.

Definition round (A : list Z) (rc : Z) : list Z :=
  iota rc (chi (rhopi (theta A))).

Definition keccakF1600 (A : list Z) : list Z := foldl round A RC.

(** Little-endian lanes. *)
Fixpoint load64 (bs : list Z) : Z :=
  match bs with
  | [] => 0
  | b :: bs' => b + 256 * load64 bs'
  end.

Definition store64 (v : Z) : list Z :=
  map (fun i => Z.land (Z.shiftr v (8 * Z.of_nat i)) 255) (seq 0 8).

Fixpoint chunks {A} (fuel n : nat) (l : list A) : list (list A) :=
  match fuel with
  | O => []
  | S fuel' =>
    match l with
    | [] => []
    | _ => take n l :: chunks fuel' n (drop n l)
    end
  end.

(** The rate of Keccak-256 in bytes. *)
Definition rate : nat := 136.

(** Multi-rate padding with the legacy domain byte [0x01]: no suffix bits
    are added to the message before the padding. *)
Definition pad (msg : list Z) : list Z :=
  let q := (rate - length msg mod rate)%nat in
  if (q =? 1)%nat then msg ++ [129]
  else msg ++ [1] ++ replicate (q - 2) 0 ++ [128].

Definition absorb (A : list Z) (block : list Z) : list Z :=
  let lanes := map load64 (chunks 17 8 block) in
  keccakF1600
    (imap (fun i a => Z.lxor a (default 0 (lanes !! i))) A).

(** [crypto.Keccak256(data)]. *)
Definition Keccak256 (data : gostring) : gostring :=
  let msg := pad (map byteval data) in
  let A := foldl absorb (replicate 25 0) (chunks (length msg) rate msg) in
  map byteof (take 32 (flat_map store64 A)).

End crypto.

Module common.

Definition HashLength : nat := 32.

(** [common.Hash] and [common.Address] are arrays of 32 and of 20 bytes. *)
Abbreviation Hash := (list ascii) (only parsing).
Abbreviation Address := (list ascii) (only parsing).

(** [BytesToHash]: [b] is cropped from the left when it is too long and
    is right-aligned in the hash when it is too short. *)
Definition BytesToHash (b : gostring) : Hash :=
  let b' := drop (length b - HashLength) b in
  replicate (HashLength - length b') zero ++ b'.

Definition hexdigit (n : Z) : ascii :=
  if n <? 10 then byteof (48 + n) else byteof (87 + n).

(** Lower-case hexadecimal, two digits a byte ([hex.Encode]). *)
Definition hexEncode (b : gostring) : gostring :=
  flat_map (fun c => [hexdigit (Z.shiftr (byteval c) 4);
                      hexdigit (Z.land (byteval c) 15)]) b.

(** [Address.Hex], which [Address.String] returns: the hexadecimal digits
    behind [0x], a letter in upper case when the matching nibble of the
    Keccak-256 hash of the lower-case digits is above 7 (EIP-55). *)
Definition Hex (a : Address) : gostring :=
  let buf := hexEncode a in
  let hash := crypto.Keccak256 buf in
  bytes "0x" ++
  imap (fun i c =>
          let hashByte := byteval (default zero (hash !! (i / 2)%nat)) in
          let nibble := if Nat.even i then Z.shiftr hashByte 4
                        else Z.land hashByte 15 in
          if (57 <? byteval c) && (7 <? nibble)
          then byteof (byteval c - 32) else c) buf.

(** [Address.Cmp], which is [bytes.Compare] on the bytes of the two
    addresses. *)
Fixpoint Cmp (a b : Address) : Z :=
  match a, b with
  | [], [] => 0
  | [], _ :: _ => -1
  | _ :: _, [] => 1
  | x :: a', y :: b' =>
    if byteval x <? byteval y then -1
    else if byteval y <? byteval x then 1
    else Cmp a' b'
  end.

(** [common.Address{}]: twenty zero bytes. *)
Definition ZeroAddress : Address := replicate 20 zero.

End common.

(** ** [math/big] *)
Module big.

(** A [*big.Int]: [None] is the nil pointer. *)
Abbreviation Int := (option Z) (only parsing).

End big.

(** ** Effects of a tick: the metrics registry, and panics *)

(** A call returns or panics. *)
Inductive outcome (A : Type) : Type :=
  | Done (a : A)
  | Panicked (msg : string).
Arguments Done {A} a.
Arguments Panicked {A} msg.

(** [float64(x)] for an integer [x] of at most 64 bits: the nearest
    double, ties to the even significand.  Such a double is itself an
    integer, and is kept as that integer.  With [e] the number of bits of
    [|x|] beyond the 53 of the significand, [q] is the significand cut off
    and [r] what was cut. *)
Definition float64 (x : Z) : Z :=
  let a := Z.abs x in
  let e := Z.log2 a - 52 in
  if e <=? 0 then x
  else
    let q := a / 2 ^ e in
    let r := a mod 2 ^ e in
    let half := 2 ^ (e - 1) in
    let q' := if (half <? r) || ((r =? half) && Z.odd q) then q + 1 else q in
    Z.sgn x * (q' * 2 ^ e).

Module prometheus.

(** A sample is named by its metric and its label values.  A gauge holds
    a [float64]; the monitors store only integers converted by
    [float64(...)], so the value is kept as the integer it is equal to.  A
    counter holds the number of its increments.  The check of the label
    values by the library (their number, and that they are valid UTF-8) is
    not modelled; the labels of [liveness_expiration] and of [tipmon] are
    constants and addresses in hexadecimal, which pass it. *)
Abbreviation sample := (string * list (list ascii))%type (only parsing).

Record Registry := mkRegistry {
  gauges : gmap (string * list (list ascii)) Z;
  counters : gmap (string * list (list ascii)) nat
}.

Definition empty : Registry := mkRegistry ∅ ∅.

(** [vec.WithLabelValues(lvs...)] on a gauge vector: the child is created
    with the value 0 when it does not exist yet. *)
Definition WithLabelValues (vec : string) (lvs : list gostring)
    (reg : Registry) : Registry :=
  match gauges reg !! (vec, lvs) with
  | Some _ => reg
  | None => mkRegistry (<[(vec, lvs) := 0]> (gauges reg)) (counters reg)
  end.

(** [vec.WithLabelValues(lvs...).Set(v)], for [v] already a [float64]. *)
Definition Set_ (vec : string) (lvs : list gostring) (v : Z)
    (reg : Registry) : Registry :=
  mkRegistry (<[(vec, lvs) := v]> (gauges reg)) (counters reg).

Definition count (reg : Registry) (vec : string) (lvs : list gostring)
    : nat :=
  default 0%nat (counters reg !! (vec, lvs)).

(** [vec.WithLabelValues(lvs...).Inc()] *)
Definition Inc (vec : string) (lvs : list gostring) (reg : Registry)
    : Registry :=
  mkRegistry (gauges reg)
             (<[(vec, lvs) := S (count reg vec lvs)]> (counters reg)).

End prometheus.

(** Code that acts on the registry and may panic.  The lines written by the
    logger and by [fmt.Printf] do not act on the registry and are left
    out. *)
Definition M (A : Type) : Type :=
  prometheus.Registry → outcome A * prometheus.Registry.

Definition ret {A} (a : A) : M A := fun reg => (Done a, reg).

Definition bind {A B} (m : M A) (k : A → M B) : M B :=
  fun reg =>
    match m reg with
    | (Done a, reg') => k a reg'
    | (Panicked msg, reg') => (Panicked msg, reg')
    end.

Definition panic {A} (msg : string) : M A := fun reg => (Panicked msg, reg).

Definition act (f : prometheus.Registry → prometheus.Registry) : M unit :=
  fun reg => (Done tt, f reg).

Notation "x <- m ;; k" := (bind m (fun x => k))
  (at level 100, m at next level, right associativity).
Notation "m ;; k" := (bind m (fun _ => k))
  (at level 100, right associativity).

(** [for _, x := range l { body }] *)
Fixpoint forRange {A} (l : list A) (body : A → M unit) : M unit :=
  match l with
  | [] => ret tt
  | x :: l' => body x ;; forRange l' body
  end.

(** [if err != nil { handler }], where the handler falls through. *)
Definition whenErr (err : option gostring) (handler : M unit) : M unit :=
  match err with
  | Some _ => handler
  | None => ret tt
  end.

Definition nilDeref : string :=
  "invalid memory address or nil pointer dereference".

(** [x.Uint64()] on a [*big.Int]: the low 64 bits of the absolute value; the
    method reads through the pointer. *)
Definition Uint64 (x : big.Int) : M Z :=
  match x with
  | None => panic nilDeref
  | Some v => ret (Z.abs v mod 2 ^ 64)
  end.

(** ** Package [global_events]: canonical signatures *)
Module global_events.

(** The pattern compiled by [formatSignature]: a captured run of one or
    more word characters, any white space, an opening parenthesis, a
    captured run of any characters other than the closing parenthesis,
    and a closing parenthesis. *)
Definition r : list regexp.atom :=
  [ regexp.Atom regexp.perl_w regexp.Plus true;
    regexp.Atom regexp.perl_s regexp.Star false;
    regexp.Atom (regexp.lit "("%char) regexp.One false;
    regexp.Atom (regexp.notlit ")"%char) regexp.Star true;
    regexp.Atom (regexp.lit ")"%char) regexp.One false ].

(** The loop body of [formatSignature]: keep the first field of [param],
    if it has one. *)
Definition addParam (cleanParams : list gostring) (param : gostring)
    : list gostring :=
  match strings.Fields param with
  | part :: _ => cleanParams ++ [part]
  | [] => cleanParams
  end.

Definition formatSignature (signature : gostring) : gostring :=
  match regexp.FindStringSubmatch r signature with
  | [_; funcName; params] =>
    let cleanParams :=
      foldl addParam [] (strings.Split params ","%char) in
    funcName ++ bytes "(" ++ strings.Join cleanParams (bytes ",")
      ++ bytes ")"
  | _ => []
  end.

(** [FormatAndHash]: the Keccak-256 hash of the formatted signature; the
    call panics when [formatSignature] returns the empty string. *)
Definition FormatAndHash (signature : gostring) : outcome common.Hash :=
  let formattedSignature := formatSignature signature in
  match formattedSignature with
  | [] => Panicked "Invalid signature"
  | _ => Done (common.BytesToHash (crypto.Keccak256 formattedSignature))
  end.

(** The rules read from the yaml files.  The declarations of these types
    are not among the sources; the fields are those that [checkEvents],
    [isAddressIntoConfig] and [NewMonitor] read. *)
Record Event := mkEvent { Signature : gostring }.

Record Configuration := mkConfiguration {
  Name : gostring;
  Priority : gostring;
  Addresses : list common.Address;
  Events : list Event
}.

Record GlobalConfiguration := mkGlobalConfiguration {
  Configurations : list Configuration
}.

(** [types.Log], the fields that are read. *)
Record Log := mkLog {
  Address : common.Address;
  Topics : list common.Hash;
  TxHash : common.Hash
}.

Record Header := mkHeader { Number : Z }.

Record FilterQuery := mkFilterQuery { FromBlock : Z; ToBlock : Z }.

(** What the L1 node answers during one tick: each call returns a value
    and an error, as in Go. *)
Record Client := mkClient {
  HeaderByNumber : option Header * option gostring;
  FilterLogs : FilterQuery → list Log * option gostring
}.

Record Monitor := mkMonitor {
  l1Client : Client;
  globalconfig : GlobalConfiguration;
  nickname : gostring
}.

(** The loop of [isAddressIntoConfig] over the addresses of the rule. *)
Fixpoint addressLoop (address : common.Address)
    (addrs : list common.Address) : bool :=
  match addrs with
  | [] => false
  | addr :: addrs' =>
    if decide (addr = address) then true else addressLoop address addrs'
  end.

Definition isAddressIntoConfig (address : common.Address)
    (config : Configuration) : bool :=
  if (length (Addresses config) =? 0)%nat then true
  else addressLoop address (Addresses config).

Section Lookup.

(** The method of [GlobalConfiguration] that finds the rule of a topic
    is declared outside the sources at hand; [checkEvents] is read for
    any such method. *)
Variable SearchIfATopicIsInsideAnAlert :
  GlobalConfiguration → common.Hash → Configuration.

(** The body of the loop of [checkEvents] over the logs; [float64(1)]
    is 1. *)
Definition checkLog (m : Monitor) (vLog : Log) : M unit :=
  match Topics vLog with
  | [] => ret tt
  | topic0 :: _ =>
    if (0 <? length (Events
          (SearchIfATopicIsInsideAnAlert (globalconfig m) topic0)))%nat
    then
      let config :=
        SearchIfATopicIsInsideAnAlert (globalconfig m) topic0 in
      if isAddressIntoConfig (Address vLog) config then
        match Events config with
        | [] => panic "index out of range [0] with length 0"
        | event0 :: _ =>
          act (prometheus.Set_ "eventEmitted"
                 [nickname m; Name config; Priority config;
                  Signature event0; common.Hex (Address vLog)] 1)
        end
      else ret tt
    else ret tt
  end.

Definition checkEvents (m : Monitor) : M unit :=
  let '(header, err) := HeaderByNumber (l1Client m) in
  match err with
  | Some _ =>
    act (prometheus.Inc "unexpectedRpcErrors"
           [bytes "L1"; bytes "HeaderByNumber"])
  | None =>
    match header with
    | None => panic nilDeref
    | Some h =>
      let latestBlockNumber := Number h in
      let query := mkFilterQuery latestBlockNumber latestBlockNumber in
      let '(logs, err) := FilterLogs (l1Client m) query in
      match err with
      | Some _ =>
        act (prometheus.Inc "unexpectedRpcErrors"
               [bytes "L1"; bytes "FilterLogs"])
      | None => forRange logs (checkLog m)
      end
    end
  end.

Definition Run (m : Monitor) : M unit := checkEvents m.

End Lookup.

Definition hashes (topic : common.Hash) (e : Event) : bool :=
  match FormatAndHash (Signature e) with
  | Done h => bool_decide (h = topic)
  | Panicked _ => false
  end.

(** Modelled from the spec: the body of the method
    [SearchIfATopicIsInsideAnAlert] of [GlobalConfiguration] is missing
    from the sources.  Its two call sites give its type: a topic in, one
    [Configuration] out, whose [Events] are empty when nothing is found.
    After section 4.3 of the specification a rule is found under the
    topic of each of its events, each topic being the hash of the
    canonical signature, and the rules are taken in the order of the
    configuration. *)
Definition SearchIfATopicIsInsideAnAlert (G : GlobalConfiguration)
    (topic : common.Hash) : Configuration :=
  match filter (fun c => existsb (hashes topic) (Events c) = true)
               (Configurations G) with
  | config :: _ => config
  | [] => mkConfiguration [] [] [] []
  end.

End global_events.

(** ** Package [liveness_expiration] *)
Module liveness_expiration.

(** What the node and the bound contracts answer during one tick. *)
Record Chain := mkChain {
  BlockNumber : Z * option gostring;
  GetOwners : list common.Address * option gostring;
  LastLive : common.Address → big.Int * option gostring;
  LivenessInterval : big.Int * option gostring
}.

Record Monitor := mkMonitor {
  l1 : Chain;
  GnosisSafeAddress : common.Address
}.

Definition errors (name : string) : M unit :=
  act (prometheus.Inc "unexpectedRpcErrors" [bytes "l1"; bytes name]).

(** The body of the loop of [Run] over the owners.  In
    [vec.WithLabelValues(l).Set(float64(x.Uint64()))] the receiver is
    evaluated before the argument: the child exists when [Uint64] reads
    through the pointer. *)
Definition lastLiveOf (m : Monitor) (owner : common.Address) : M unit :=
  let '(lastLive, err) := LastLive (l1 m) owner in
  whenErr err (errors "LastLive") ;;
  act (prometheus.WithLabelValues "lastLiveOfAOwner" [common.Hex owner]) ;;
  v <- Uint64 lastLive ;;
  act (prometheus.Set_ "lastLiveOfAOwner" [common.Hex owner] (float64 v)).

Definition Run (m : Monitor) : M unit :=
  let '(latestL1Height, err) := BlockNumber (l1 m) in
  whenErr err (errors "blockNumber") ;;
  let '(listOwners, err) := GetOwners (l1 m) in
  whenErr err (errors "GetOwners") ;;
  forRange listOwners (lastLiveOf m) ;;
  let '(interval, err) := LivenessInterval (l1 m) in
  whenErr err (errors "LivenessInterval") ;;
  act (prometheus.WithLabelValues "intervalLiveness" [bytes "interval"]) ;;
  v <- Uint64 interval ;;
  act (prometheus.Set_ "intervalLiveness" [bytes "interval"] (float64 v)) ;;
  act (prometheus.Set_ "highestBlockNumber" [bytes "blockNumber"]
         (float64 latestL1Height)).

(** The configuration read from the command line.  Its declaration is not
    among the sources; the fields are those that [NewMonitor] reads. *)
Record CLIConfig := mkCLIConfig {
  L1NodeURL : gostring;
  SafeAddress : common.Address;
  LivenessGuardAddress : common.Address;
  LivenessModuleAddress : common.Address;
  LoopIntervalMsec : Z
}.

(** What lies outside [NewMonitor]: [ethclient.Dial], which returns a
    client or an error, and the three constructors of the bindings, which
    return an error or none. *)
Record World := mkWorld {
  Dial : gostring → Chain + gostring;
  NewGnosisSafe : common.Address → option gostring;
  NewLivenessGuard : common.Address → option gostring;
  NewLivenessModule : common.Address → option gostring
}.

(** [fmt.Errorf] with a format that ends in its one verb, [%w] or [%s]. *)
Definition Errorf (format : string) (arg : gostring) : gostring :=
  bytes format ++ arg.

(** [NewMonitor]: a monitor and no error, or no monitor and an error. *)
Definition NewMonitor (w : World) (cfg : CLIConfig)
    : option Monitor * option gostring :=
  match Dial w (L1NodeURL cfg) with
  | inr err => (None, Some (Errorf "failed to dial l1: " err))
  | inl l1Client =>
    if common.Cmp (SafeAddress cfg) common.ZeroAddress =? 0 then
      (None, Some (Errorf "The `SafeAddress` specified is set to -> "
                     (common.Hex (SafeAddress cfg))))
    else if common.Cmp (LivenessGuardAddress cfg) common.ZeroAddress =? 0 then
      (None,
       Some (Errorf "The `LivenessGuardAddress` specified is set to -> "
               (common.Hex (LivenessGuardAddress cfg))))
    else if common.Cmp (LivenessModuleAddress cfg) common.ZeroAddress =? 0
    then
      (None,
       Some (Errorf "The `LivenessModuleAddress` specified is set to -> "
               (common.Hex (LivenessModuleAddress cfg))))
    else
      match NewGnosisSafe w (SafeAddress cfg) with
      | Some err =>
        (None, Some (Errorf "failed to bind to the GnosisSafe: " err))
      | None =>
        match NewLivenessGuard w (LivenessGuardAddress cfg) with
        | Some err =>
          (None, Some (Errorf "failed to bind to the LivenessGuard: " err))
        | None =>
          match NewLivenessModule w (LivenessModuleAddress cfg) with
          | Some err =>
            (None,
             Some (Errorf "failed to bind to the LivenessModule: " err))
          | None => (Some (mkMonitor l1Client (SafeAddress cfg)), None)
          end
        end
      end
  end.

End liveness_expiration.

(** ** Package [tipmon] *)
Module tipmon.

(** [RPCBlock]: the time of the header and the transactions. *)
Record RPCBlock := mkRPCBlock {
  Time : Z;
  Transactions : list gostring
}.

(** The answer to [eth_getBlockByNumber] during one tick, and the clock. *)
Record Node := mkNode {
  CallContext : RPCBlock * option gostring;
  Now : Z
}.

Record Monitor := mkMonitor { rpc : Node }.

(** [int64(x)] for an unsigned 64-bit [x]. *)
Definition int64 (x : Z) : Z :=
  let y := x mod 2 ^ 64 in
  if y <? 2 ^ 63 then y else y - 2 ^ 64.

Definition Run (m : Monitor) : M unit :=
  let '(result, err) := CallContext (rpc m) in
  match err with
  | Some _ =>
    act (prometheus.Inc "unexpectedRpcErrors"
           [bytes "laggingDistance"; bytes "eth_getBlockByNumber"])
  | None =>
    let lag := int64 (Now (rpc m) - int64 (Time result)) in
    act (prometheus.Set_ "laggingDistance" [bytes "latest"] (float64 lag)) ;;
    let nTxs := Z.of_nat (length (Transactions result)) in
    act (prometheus.Set_ "blockNumTransactions" [bytes "latest"]
           (float64 nTxs))
  end.

End tipmon.

(** ** Vocabulary for canonical signatures *)
Module canonical.

(** Word characters and the white space of the pattern. *)
Definition word (s : gostring) : Prop :=
  Forall (fun c => regexp.perl_w c = true) s.

Definition blank (s : gostring) : Prop :=
  Forall (fun c => regexp.perl_s c = true) s.

(** White space as [strings.Fields] reads it, rune by rune: a text of
    white space only (the empty text is one), and a text without any. *)
Definition spaces (s : gostring) : Prop :=
  Forall (fun rb => utf8.IsSpace rb.1 = true) (utf8.range s).

Definition solid (s : gostring) : Prop :=
  s ≠ [] ∧ Forall (fun rb => utf8.IsSpace rb.1 = false) (utf8.range s).

(** The text is empty or starts with white space. *)
Definition spaceFirst (s : gostring) : Prop :=
  match utf8.range s with
  | rb :: _ => utf8.IsSpace rb.1 = true
  | [] => True
  end.

(** [t] is the first white-space-separated token of the field [f]. *)
Definition FirstToken (f t : gostring) : Prop :=
  ∃ sp rest, f = sp ++ t ++ rest ∧ spaces sp ∧ solid t ∧ spaceFirst rest.

(** The types of a list of comma-separated fields: a field of white space
    only gives no type, any other gives its first token, in order. *)
Inductive CleanTypes : list gostring → list gostring → Prop :=
  | clean_nil : CleanTypes [] []
  | clean_skip f fs ts :
      spaces f → CleanTypes fs ts → CleanTypes (f :: fs) ts
  | clean_keep f fs t ts :
      FirstToken f t → CleanTypes fs ts → CleanTypes (f :: fs) (t :: ts).

(** A type of a canonical signature: not empty, without white space,
    comma or closing parenthesis. *)
Definition type (t : gostring) : Prop :=
  solid t ∧ (","%char ∉ t) ∧ (")"%char ∉ t).

(** The canonical form [name(type1,type2,...)]. *)
Definition Canonical (s : gostring) : Prop :=
  ∃ name types,
    s = name ++ bytes "(" ++ strings.Join types (bytes ",") ++ bytes ")"
    ∧ name ≠ [] ∧ word name ∧ Forall type types.

(** The parameter segment [params] of [s] ends at the first closing
    parenthesis of [s]. *)
Definition endsAtFirstClose (s params : gostring) : Prop :=
  ∃ pre post,
    s = pre ++ params ++ ")"%char :: post ∧ (")"%char ∉ pre ++ params).

End canonical.

(** ** A configuration with two rules on one event *)
Module scenario.
Import global_events.

Definition transfer : gostring := bytes "Transfer(address,address,uint256)".

Definition topic : common.Hash := crypto.Keccak256 transfer.

Definition R1 : Configuration :=
  mkConfiguration (bytes "R1") (bytes "P1") [] [mkEvent transfer].

Definition R2 : Configuration :=
  mkConfiguration (bytes "R2") (bytes "P2") [] [mkEvent transfer].

Definition rules : GlobalConfiguration := mkGlobalConfiguration [R1; R2].

Definition token : common.Address :=
  map byteof [0x5a; 0xAe; 0xb6; 0x05; 0x3F; 0x3E; 0x94; 0xC9; 0xb9; 0xA0;
              0x9f; 0x33; 0x66; 0x94; 0x35; 0xE7; 0xEf; 0x1B; 0xeA; 0xed].

Definition txhash : common.Hash := replicate 32 zero.

Definition transferLog : Log := mkLog token [topic] txhash.

Definition anonymousLog : Log := mkLog token [] txhash.

(** A node at block 100 that answers every filter query with [logs]. *)
Definition node (logs : list Log) : Client :=
  mkClient (Some (mkHeader 100), None) (fun _ => (logs, None)).

Definition monitor (logs : list Log) : Monitor :=
  mkMonitor (node logs) rules (bytes "mainnet").

(** The labels of the sample of a rule for a log of [token]. *)
Definition labels (config : Configuration) : list gostring :=
  [bytes "mainnet"; Name config; Priority config; transfer;
   bytes "0x5aAeb6053F3E94C9b9A09f33669435E7Ef1BeAed"].

(** Two ticks of the liveness poll over a safe with one owner: in the
    first the block number cannot be read, in the second the read of
    [lastLive] fails and the binding returns a nil [*big.Int]. *)
Definition noBlockNumber : liveness_expiration.Monitor :=
  liveness_expiration.mkMonitor
    (liveness_expiration.mkChain
       (0, Some (bytes "context deadline exceeded"))
       ([token], None)
       (fun _ => (Some 1700000000, None))
       (Some 8467200, None))
    token.

Definition noLastLive : liveness_expiration.Monitor :=
  liveness_expiration.mkMonitor
    (liveness_expiration.mkChain
       (19000000, None)
       ([token], None)
       (fun _ => (None, Some (bytes "context deadline exceeded")))
       (Some 8467200, None))
    token.

End scenario.

(** ** What a log gives rise to *)
Module matching.
Import global_events.

(** The labels of the sample that a log gives rise to, if any: what
    [checkLog] passes to [WithLabelValues]. *)
Definition sampleOf
    (lookup : GlobalConfiguration → common.Hash → Configuration)
    (m : Monitor) (vLog : Log) : option (list gostring) :=
  match Topics vLog with
  | [] => None
  | topic0 :: _ =>
    let config := lookup (globalconfig m) topic0 in
    match Events config with
    | [] => None
    | event0 :: _ =>
      if isAddressIntoConfig (Address vLog) config
      then Some [nickname m; Name config; Priority config;
                 Signature event0; common.Hex (Address vLog)]
      else None
    end
  end.

(** The registry after the samples [lvss] are set to 1, one after the
    other. *)
Definition setAll (lvss : list (list gostring))
    (reg : prometheus.Registry) : prometheus.Registry :=
  foldl (fun reg lvs => prometheus.Set_ "eventEmitted" lvs 1 reg) reg lvss.

End matching.

(** ** Reading an address back from its text *)
Module hexadecimal.

(** The value of a hexadecimal digit, in either case. *)
Definition digit (c : ascii) : Z :=
  let b := byteval c in
  if (48 <=? b) && (b <=? 57) then b - 48
  else if (97 <=? b) && (b <=? 102) then b - 87
  else if (65 <=? b) && (b <=? 70) then b - 55
  else 0.

(** Two digits a byte. *)
Fixpoint decode (s : list ascii) : list ascii :=
  match s with
  | hi :: lo :: s' => byteof (16 * digit hi + digit lo) :: decode s'
  | _ => []
  end.

(** The address behind the text [0x...]. *)
Definition address (s : list ascii) : list ascii := decode (drop 2 s).

End hexadecimal.

(** ** More ticks *)
Module ticks.

(** The log fetch of [global_events] fails. *)
Definition logsDown : global_events.Monitor :=
  global_events.mkMonitor
    (global_events.mkClient
       (Some (global_events.mkHeader 100), None)
       (fun _ => ([], Some (bytes "context deadline exceeded"))))
    scenario.rules (bytes "mainnet").

(** Every read of the liveness poll succeeds. *)
Definition allRead : liveness_expiration.Monitor :=
  liveness_expiration.mkMonitor
    (liveness_expiration.mkChain
       (19000000, None)
       ([scenario.token], None)
       (fun _ => (Some 1700000000, None))
       (Some 8467200, None))
    scenario.token.

(** The tip is twelve seconds old; and the node does not answer. *)
Definition tip : tipmon.Monitor :=
  tipmon.mkMonitor
    (tipmon.mkNode
       (tipmon.mkRPCBlock 1700000000 [bytes "0x01"; bytes "0x02"], None)
       1700000012).

Definition noTip : tipmon.Monitor :=
  tipmon.mkMonitor
    (tipmon.mkNode
       (tipmon.mkRPCBlock 0 [], Some (bytes "context deadline exceeded"))
       1700000012).

End ticks.

(** * Proofs *)

(** Boolean tests on integers, read as propositions. *)
Ltac zbool :=
  repeat match goal with
  | H : (_ && _) = true |- _ => apply andb_true_iff in H as [? ?]
  | H : (_ || _) = false |- _ => apply orb_false_iff in H as [? ?]
  | H : (_ && _) = false |- _ => apply andb_false_iff in H as [?|?]
  | H : (_ || _) = true |- _ => apply orb_true_iff in H as [?|?]
  | H : negb _ = true |- _ => apply negb_true_iff in H
  | H : negb _ = false |- _ => apply negb_false_iff in H
  | H : (_ <? _) = true |- _ => apply Z.ltb_lt in H
  | H : (_ <? _) = false |- _ => apply Z.ltb_ge in H
  | H : (_ <=? _) = true |- _ => apply Z.leb_le in H
  | H : (_ <=? _) = false |- _ => apply Z.leb_gt in H
  | H : (_ =? _) = true |- _ => apply Z.eqb_eq in H
  | H : (_ =? _) = false |- _ => apply Z.eqb_neq in H
  end.

(** Closed facts are settled by evaluation. *)
Ltac evaluated :=
  match goal with
  | |- ?P => apply (@bool_decide_unpack P ltac:(apply _));
             vm_compute; exact I
  end.

(** ** Known values of the models *)
Example formatSignature_doc :
  global_events.formatSignature (bytes "transfer(address owner, uint256 amount)")
  = bytes "transfer(address,uint256)".
Proof. vm_compute. reflexivity. Qed.

Example Keccak256_empty :
  common.hexEncode (crypto.Keccak256 []) =
  bytes "c5d2460186f7233c927e7db2dcc703c0e500b653ca82273b7bfad8045d85a470".
Proof. vm_compute. reflexivity. Qed.

Example Keccak256_abc :
  common.hexEncode (crypto.Keccak256 (bytes "abc")) =
  bytes "4e03657aea45a94fc7d47ba826c8d667c0d1e6e33a64a036ec44f58fa12d6c45".
Proof. vm_compute. reflexivity. Qed.

Example Keccak256_Transfer :
  common.hexEncode (crypto.Keccak256 (bytes "Transfer(address,address,uint256)")) =
  bytes "ddf252ad1be2c89b69c2b068fc378daa952ba7f163c4a11628f55a4df523b3ef".
Proof. vm_compute. reflexivity. Qed.

Example Keccak256_three_blocks :
  common.hexEncode (crypto.Keccak256 (replicate 300 "a"%char)) =
  bytes "5b7e0e47a96f32a88b4f14ca177982790807c40e1a105742ba0fc1babe1ef826".
Proof. vm_compute. reflexivity. Qed.

(** Empty and blank fields give no type; white space may stand between the
    name and the parenthesis; text around the match is dropped; a no-break
    space (bytes [C2 A0]) separates a type from a name as a blank does. *)
Example formatSignature_blank_fields :
  global_events.formatSignature (bytes "f(a,, b x , )") = bytes "f(a,b)".
Proof. vm_compute. reflexivity. Qed.

Example formatSignature_no_parameters :
  global_events.formatSignature (bytes "pause ( )") = bytes "pause()".
Proof. vm_compute. reflexivity. Qed.

Example formatSignature_around :
  global_events.formatSignature (bytes "event Sent(address to); // note")
  = bytes "Sent(address)".
Proof. vm_compute. reflexivity. Qed.

Example formatSignature_no_break_space :
  global_events.formatSignature
    (bytes "f(uint8" ++ [byteof 194; byteof 160] ++ bytes "x)")
  = bytes "f(uint8)".
Proof. vm_compute. reflexivity. Qed.

Example formatSignature_no_match :
  global_events.formatSignature (bytes "transfer") = [].
Proof. vm_compute. reflexivity. Qed.

Example Hex_eip55 :
  common.Hex (map byteof [0x5a;0xAe;0xb6;0x05;0x3F;0x3E;0x94;0xC9;0xb9;0xA0;0x9f;0x33;0x66;0x94;0x35;0xE7;0xEf;0x1B;0xeA;0xed])
  = bytes "0x5aAeb6053F3E94C9b9A09f33669435E7Ef1BeAed".
Proof. vm_compute. reflexivity. Qed.

(** ** The matcher of [regexp] *)
Section Matcher.
Import regexp.

Lemma attempts_top {A} (f : nat → option A) lo n r :
  (lo ≤ n)%nat → f n = Some r → attempts f lo n = Some r.
Proof.
  intros Hle Hf. destruct n; simpl.
  - destruct lo; [|lia]. simpl. by rewrite Hf.
  - destruct (Nat.ltb_spec (S n) lo); [lia|]. by rewrite Hf.
Qed.

Lemma attempts_inv {A} (f : nat → option A) lo n r :
  attempts f lo n = Some r → ∃ k, (lo ≤ k ≤ n)%nat ∧ f k = Some r.
Proof.
  induction n as [|n IH]; simpl.
  - destruct (Nat.ltb_spec 0 lo); [done|].
    destruct (f 0%nat) eqn:Hf; [|done].
    intros [= <-]. exists 0%nat. split; [lia|done].
  - destruct (Nat.ltb_spec (S n) lo); [done|].
    destruct (f (S n)) eqn:Hf.
    + intros [= <-]. exists (S n). split; [lia|done].
    + intros Hr. destruct (IH Hr) as (k & Hk & Hfk).
      exists k. split; [lia|done].
Qed.

Lemma attempts_none {A} (f : nat → option A) lo n :
  (∀ k, (lo ≤ k ≤ n)%nat → f k = None) → attempts f lo n = None.
Proof.
  intros Hf. destruct (attempts f lo n) eqn:E; [|done].
  apply attempts_inv in E as (k & Hk & Hfk).
  rewrite Hf in Hfk; done.
Qed.

Lemma run_le cl s : (run cl s ≤ length s)%nat.
Proof. induction s as [|c s IH]; simpl; [lia|]. destruct (cl c); simpl; lia. Qed.

Lemma run_app cl a b :
  Forall (fun c => cl c = true) a →
  (∀ c b', b = c :: b' → cl c = false) →
  run cl (a ++ b) = length a.
Proof.
  intros Ha Hb. induction Ha as [|c a Hc Ha IH]; simpl.
  - destruct b as [|c b']; [done|]. simpl. by rewrite (Hb c b').
  - by rewrite Hc, IH.
Qed.

Lemma take_run cl s k :
  (k ≤ run cl s)%nat → Forall (fun c => cl c = true) (take k s).
Proof.
  revert k. induction s as [|c s IH]; intros k Hk.
  - rewrite take_nil. constructor.
  - destruct k; [constructor|]. simpl in *.
    destruct (cl c) eqn:Hc; [|lia].
    constructor; [done|]. apply IH. lia.
Qed.

Lemma matchHere_cons_inv a p s caps' rest :
  matchHere (a :: p) s = Some (caps', rest) →
  ∃ k caps,
    (lo_of (times a) ≤ k ≤ run (class a) s)%nat
    ∧ (times a = One → k = 1%nat)
    ∧ matchHere p (drop k s) = Some (caps, rest)
    ∧ caps' = if captured a then take k s :: caps else caps.
Proof.
  simpl. intros H. apply attempts_inv in H as (k & Hk & Hf).
  destruct (matchHere p (drop k s)) as [[caps rest']|] eqn:Hm; [|done].
  injection Hf as <- <-.
  exists k, caps. split_and!; try done.
  - unfold lo_of. revert Hk. destruct (times a); lia.
  - revert Hk. destruct (times a), (run (class a) s); lia.
  - intros Ht. rewrite Ht in Hk.
    destruct (run (class a) s); lia.
Qed.

Lemma matchHere_one a p c s caps rest :
  times a = One → class a c = true →
  matchHere p s = Some (caps, rest) →
  matchHere (a :: p) (c :: s)
  = Some (if captured a then [c] :: caps else caps, rest).
Proof.
  intros Ht Hc Hm. simpl. rewrite Ht, Hc. simpl.
  rewrite drop_0, Hm, take_0. done.
Qed.

Lemma matchHere_greedy a p s caps rest :
  times a ≠ One →
  (lo_of (times a) ≤ run (class a) s)%nat →
  matchHere p (drop (run (class a) s) s) = Some (caps, rest) →
  matchHere (a :: p) s
  = Some (if captured a then take (run (class a) s) s :: caps else caps,
          rest).
Proof.
  intros Ht Hlo Hm. simpl.
  apply attempts_top.
  - unfold lo_of in Hlo. destruct (times a); done.
  - destruct (times a); [done| |]; by rewrite Hm.
Qed.

(** Words, white space of the pattern, and text free of a byte. *)
Lemma perl_s_not_w c : perl_s c = true → perl_w c = false.
Proof. destruct c as [[] [] [] [] [] [] [] []]; vm_compute; done. Qed.

Lemma matchHere_r_intro name ws params rest :
  name ≠ [] →
  Forall (fun c => perl_w c = true) name →
  Forall (fun c => perl_s c = true) ws →
  ")"%char ∉ params →
  matchHere global_events.r
    (name ++ ws ++ "("%char :: params ++ ")"%char :: rest)
  = Some ([name; params], rest).
Proof.
  intros Hne Hname Hws Hpar. unfold global_events.r.
  assert (Hr1 : run perl_w (name ++ ws ++ "("%char :: params ++ ")"%char :: rest)
                = length name).
  { apply run_app; [done|]. intros c b' Hb.
    destruct Hws as [|c' ws' Hc' Hws']; simpl in Hb.
    - by injection Hb as <- _.
    - injection Hb as <- _. by apply perl_s_not_w. }
  assert (Hr2 : run perl_s (ws ++ "("%char :: params ++ ")"%char :: rest)
                = length ws).
  { apply run_app; [done|]. intros c b' Hb. by injection Hb as <- _. }
  assert (Hr4 : run (notlit ")"%char) (params ++ ")"%char :: rest)
                = length params).
  { apply run_app.
    - apply Forall_forall. intros c Hc. unfold notlit, lit.
      rewrite bool_decide_eq_false_2; [done|]. by intros ->.
    - intros c b' Hb. by injection Hb as <- _. }
  rewrite (matchHere_greedy _ _ _ [params] rest); simpl class; simpl times.
  - simpl captured. by rewrite Hr1, take_app_length.
  - done.
  - rewrite Hr1. simpl. destruct name; [done|simpl; lia].
  - rewrite Hr1, drop_app_length.
    rewrite (matchHere_greedy _ _ _ [params] rest);
      simpl class; simpl times; simpl captured.
    + done.
    + done.
    + simpl. lia.
    + rewrite Hr2, drop_app_length.
      rewrite (matchHere_one _ _ _ _ [params] rest); try done.
      rewrite (matchHere_greedy _ _ _ [] rest);
        simpl class; simpl times; simpl captured.
      * by rewrite Hr4, take_app_length.
      * done.
      * simpl. lia.
      * rewrite Hr4, drop_app_length.
        by rewrite (matchHere_one _ _ _ _ [] rest).
Qed.

Lemma take_one_lit x (s : list ascii) :
  (1 ≤ run (lit x) s)%nat → take 1 s = [x] ∧ s = x :: drop 1 s.
Proof.
  destruct s as [|c s]; simpl; [lia|].
  unfold lit at 1. case_bool_decide as Hc; [|lia].
  subst c. by rewrite take_0, drop_0.
Qed.

Lemma matchHere_r_inv s caps rest :
  matchHere global_events.r s = Some (caps, rest) →
  ∃ name ws params,
    s = name ++ ws ++ "("%char :: params ++ ")"%char :: rest
    ∧ caps = [name; params]
    ∧ name ≠ []
    ∧ Forall (fun c => perl_w c = true) name
    ∧ Forall (fun c => perl_s c = true) ws
    ∧ ")"%char ∉ params.
Proof.
  unfold global_events.r. intros H.
  apply matchHere_cons_inv in H as (k1 & c1 & Hk1 & _ & H & ->).
  apply matchHere_cons_inv in H as (k2 & c2 & Hk2 & _ & H & ->).
  apply matchHere_cons_inv in H as (k3 & c3 & Hk3 & Hone3 & H & ->).
  apply matchHere_cons_inv in H as (k4 & c4 & Hk4 & _ & H & ->).
  apply matchHere_cons_inv in H as (k5 & c5 & Hk5 & Hone5 & H & ->).
  simpl in H. injection H as <- Hrest.
  simpl in *. specialize (Hone3 eq_refl). specialize (Hone5 eq_refl).
  subst k3 k5.
  set (s1 := drop k1 s) in *. set (s2 := drop k2 s1) in *.
  set (s3 := drop 1 s2) in *. set (s4 := drop k4 s3) in *.
  destruct (take_one_lit "("%char s2) as [_ E2]; [lia|].
  destruct (take_one_lit ")"%char s4) as [_ E4]; [lia|].
  exists (take k1 s), (take k2 s1), (take k4 s3).
  split_and!.
  - rewrite <- Hrest, <- E4. subst s4. rewrite take_drop.
    subst s3. rewrite <- E2. subst s2. rewrite take_drop.
    subst s1. by rewrite take_drop.
  - done.
  - intros E. apply (f_equal length) in E. rewrite length_take in E.
    simpl in E. pose proof (run_le perl_w s). lia.
  - apply take_run. lia.
  - apply take_run. lia.
  - intros Hin. assert (Hall := take_run (notlit ")"%char) s3 k4).
    rewrite Forall_forall in Hall.
    specialize (Hall ltac:(lia) _ Hin).
    unfold notlit, lit in Hall. by rewrite bool_decide_eq_true_2 in Hall.
Qed.

End Matcher.

(** ** Decoding: the runes of a string and of its parts *)
Section Runes.
Import utf8.

Lemma decode_width s r w :
  s ≠ [] → DecodeRuneInString s = (r, w) → (1 ≤ w ≤ length s)%nat.
Proof.
  destruct s as [|c0 [|c1 [|c2 [|c3 s]]]]; [done|..]; intros _;
    unfold DecodeRuneInString;
    repeat case_match; intros [= <- <-]; simpl; lia.
Qed.

Lemma decode_take s n r w :
  DecodeRuneInString s = (r, w) → (1 ≤ n)%nat → (w ≤ n)%nat →
  DecodeRuneInString (take n s) = (r, w).
Proof.
  destruct s as [|c0 [|c1 [|c2 [|c3 s]]]];
    destruct n as [|[|[|[|n]]]]; try lia; simpl take;
    unfold DecodeRuneInString;
    repeat case_match; simplify_eq; intros [= <- <-] ? ?;
    try done; lia.
Qed.

(** A decoded rune does not change when text is appended, as long as the
    rune is valid or the appended text does not start with a continuation
    byte. *)
Lemma decode_app a b r w :
  a ≠ [] → DecodeRuneInString a = (r, w) →
  r ≠ RuneError ∨ (∀ c b', b = c :: b' → cont (byteval c) = false) →
  DecodeRuneInString (a ++ b) = (r, w).
Proof.
  intros Ha Hd Hb.
  assert (Hc : r ≠ RuneError ∨ b = [] ∨
               ∃ c b', b = c :: b' ∧ cont (byteval c) = false).
  { destruct Hb as [?|Hb]; [by left|right].
    destruct b as [|c b']; [by left|right]. exists c, b'. eauto. }
  clear Hb. revert Hd.
  destruct a as [|c0 [|c1 [|c2 [|c3 a]]]]; [done|..];
    (destruct Hc as [Hr|[->|(c & b' & -> & Hc)]];
     [|by rewrite app_nil_r|]);
    unfold DecodeRuneInString, first, cont in *; simpl app;
    repeat case_match; simplify_eq; intros [= <- <-]; try done;
    zbool; lia.
Qed.

Lemma rangeFrom_skip k s : rangeFrom k s = range (drop k s).
Proof.
  unfold range. revert k. induction s as [|c s IH]; intros k.
  - by rewrite drop_nil.
  - destruct k; [done|]. simpl. apply IH.
Qed.

Lemma range_nil : range [] = [].
Proof. done. Qed.

Lemma range_unfold s r w :
  s ≠ [] → DecodeRuneInString s = (r, w) →
  range s = (r, take w s) :: range (drop w s).
Proof.
  intros Hs Hd. destruct (decode_width _ _ _ Hs Hd) as [Hw _].
  destruct s as [|c s]; [done|].
  unfold range at 1. cbn [rangeFrom]. rewrite Hd.
  rewrite rangeFrom_skip. destruct w; [lia|].
  simpl. by rewrite Nat.sub_0_r.
Qed.

Lemma list_length_ind {A} (P : list A → Prop) :
  (∀ l, (∀ l', (length l' < length l)%nat → P l') → P l) → ∀ l, P l.
Proof.
  intros Hstep l. remember (length l) as n eqn:Hn.
  revert l Hn. induction n as [n IH] using lt_wf_ind.
  intros l ->. apply Hstep. intros l' Hlt. by eapply IH.
Qed.

(** The runes of [s] cover [s], each with at least one byte. *)
Lemma range_concat s : concat (map snd (range s)) = s.
Proof.
  induction s as [s IH] using list_length_ind.
  destruct (decide (s = [])) as [->|Hs]; [done|].
  destruct (DecodeRuneInString s) as [r w] eqn:Hd.
  rewrite (range_unfold s r w Hs Hd). simpl.
  destruct (decode_width _ _ _ Hs Hd) as [Hw1 Hw2].
  rewrite IH; [apply take_drop|]. rewrite length_drop. lia.
Qed.

Lemma range_nonempty s : Forall (fun rb => rb.2 ≠ []) (range s).
Proof.
  induction s as [s IH] using list_length_ind.
  destruct (decide (s = [])) as [->|Hs]; [constructor|].
  destruct (DecodeRuneInString s) as [r w] eqn:Hd.
  rewrite (range_unfold s r w Hs Hd).
  destruct (decode_width _ _ _ Hs Hd) as [Hw1 Hw2].
  constructor.
  - simpl. intros E. apply (f_equal length) in E.
    rewrite length_take in E. simpl in E. lia.
  - apply IH. rewrite length_drop. lia.
Qed.

(** Cutting [s] between two of its runes: the runes of the two parts are
    the runes of [s] before and after the cut. *)
Lemma range_cut s A B :
  range s = A ++ B →
  range (concat (map snd A)) = A ∧ range (concat (map snd B)) = B.
Proof.
  revert s. induction A as [|[r bs] A IH]; intros s Hr.
  - split; [done|]. simpl in Hr. rewrite <- Hr. by rewrite range_concat.
  - destruct (decide (s = [])) as [->|Hs]; [done|].
    destruct (DecodeRuneInString s) as [r' w] eqn:Hd.
    rewrite (range_unfold s r' w Hs Hd) in Hr.
    simpl in Hr. injection Hr as Er Ebs Hr. subst r' bs.
    destruct (IH _ Hr) as [HA HB]. split; [|done].
    destruct (decode_width _ _ _ Hs Hd) as [Hw1 Hw2].
    assert (Hpre : take w s ++ concat (map snd A)
                   = take (w + length (concat (map snd A))) s).
    { pose proof (range_concat (drop w s)) as Hc.
      rewrite Hr, map_app, concat_app in Hc.
      rewrite <- (take_drop w s) at 2. rewrite <- Hc.
      rewrite take_app_add'; [|rewrite length_take; lia].
      by rewrite take_app_length. }
    simpl. rewrite Hpre.
    assert (Hd' := decode_take s (w + length (concat (map snd A))) r w Hd
                     ltac:(lia) ltac:(lia)).
    rewrite (range_unfold _ r w); [| |done].
    + rewrite <- Hpre. rewrite take_app_length', drop_app_length';
        [|rewrite length_take; lia..].
      by rewrite HA.
    + intros E. rewrite E in Hd'. simpl in Hd'. injection Hd' as _ <-. lia.
Qed.

(** Appending text does not change the runes read so far, under the
    same condition. *)
Lemma range_app a b :
  Forall (fun rb => rb.1 ≠ RuneError) (range a)
  ∨ (∀ c b', b = c :: b' → cont (byteval c) = false) →
  range (a ++ b) = range a ++ range b.
Proof.
  induction a as [a IH] using list_length_ind. intros Hab.
  destruct (decide (a = [])) as [->|Ha]; [done|].
  destruct (DecodeRuneInString a) as [r w] eqn:Hd.
  destruct (decode_width _ _ _ Ha Hd) as [Hw1 Hw2].
  rewrite (range_unfold a r w Ha Hd) in *.
  assert (Hd' : DecodeRuneInString (a ++ b) = (r, w)).
  { apply decode_app; [done..|]. destruct Hab as [Hall|?]; [left|by right].
    by inversion Hall. }
  rewrite (range_unfold (a ++ b) r w); [|by destruct a|done].
  rewrite take_app_le, drop_app_le by done.
  rewrite IH; [done|rewrite length_drop; lia|].
  destruct Hab as [Hall|?]; [left|by right]. by inversion Hall.
Qed.

Lemma IsSpace_valid r : IsSpace r = true → r ≠ RuneError.
Proof. by intros H ->. Qed.

End Runes.

(** ** [strings.Fields], [strings.Split] and [strings.Join] *)
Section Strings.
Import strings canonical.

Lemma fieldsLoop_open f cur rs : cur ≠ [] → fieldsLoop f cur rs ≠ [].
Proof.
  revert cur. induction rs as [|[r bs] rs IH]; intros cur Hcur; simpl.
  - by destruct cur.
  - destruct (f r).
    + by destruct cur.
    + apply IH. by destruct cur.
Qed.

Lemma fieldsLoop_solid f cur rs :
  Forall (fun rb => f rb.1 = false) rs →
  fieldsLoop f cur rs
  = match cur ++ concat (map snd rs) with
    | [] => []
    | _ => [cur ++ concat (map snd rs)]
    end.
Proof.
  intros H. revert cur.
  induction H as [|[r bs] rs Hr _ IH]; intros cur; simpl.
  - rewrite app_nil_r. by destruct cur.
  - simpl in Hr. rewrite Hr, IH. by rewrite <- app_assoc.
Qed.

Lemma fieldsLoop_nil f rs :
  Forall (fun rb => rb.2 ≠ []) rs →
  fieldsLoop f [] rs = [] → Forall (fun rb => f rb.1 = true) rs.
Proof.
  induction 1 as [|[r bs] rs Hbs _ IH]; [constructor|]. simpl.
  destruct (f r) eqn:Hf.
  - intros H. constructor; [done|]. by apply IH.
  - intros H. by apply fieldsLoop_open in H.
Qed.

Lemma fieldsLoop_spaces f rs :
  Forall (fun rb => f rb.1 = true) rs → fieldsLoop f [] rs = [].
Proof.
  induction 1 as [|[r bs] rs Hr _ IH]; [done|].
  simpl in *. by rewrite Hr.
Qed.

Lemma fieldsLoop_head_open f cur rs t more :
  cur ≠ [] → fieldsLoop f cur rs = t :: more →
  ∃ ts rest, rs = ts ++ rest
    ∧ Forall (fun rb => f rb.1 = false) ts
    ∧ t = cur ++ concat (map snd ts)
    ∧ spaceHead f rest.
Proof.
  revert cur. induction rs as [|[r bs] rs IH]; intros cur Hcur; simpl.
  - destruct cur; [done|]. intros [= <- <-].
    exists [], []. split_and!; simpl; rewrite ?app_nil_r; done.
  - destruct (f r) eqn:Hf.
    + destruct cur; [done|]. intros [= <- <-].
      exists [], ((r, bs) :: rs).
      split_and!; simpl; rewrite ?app_nil_r; done.
    + intros H. apply IH in H as (ts & rest & -> & Hts & -> & Hrest);
        [|by destruct cur].
      exists ((r, bs) :: ts), rest. split_and!; try done.
      * by constructor.
      * simpl. by rewrite <- app_assoc.
Qed.

Lemma fieldsLoop_head f rs t more :
  Forall (fun rb => rb.2 ≠ []) rs →
  fieldsLoop f [] rs = t :: more →
  ∃ sps ts rest, rs = sps ++ ts ++ rest
    ∧ Forall (fun rb => f rb.1 = true) sps
    ∧ Forall (fun rb => f rb.1 = false) ts
    ∧ t = concat (map snd ts) ∧ t ≠ []
    ∧ spaceHead f rest.
Proof.
  induction 1 as [|[r bs] rs Hbs _ IH]; [done|]. simpl.
  destruct (f r) eqn:Hf.
  - intros H. apply IH in H as (sps & ts & rest & -> & ? & ? & ? & ? & ?).
    exists ((r, bs) :: sps), ts, rest. split_and!; try done.
    by constructor.
  - intros H. simpl in Hbs.
    apply fieldsLoop_head_open in H as (ts & rest & -> & ? & -> & ?);
      [|done].
    exists [], ((r, bs) :: ts), rest. split_and!; try done.
    + by constructor.
    + by destruct bs.
Qed.

Lemma Fields_solid t : solid t → Fields t = [t].
Proof.
  intros [Hne Hall]. unfold Fields, FieldsFunc.
  rewrite (fieldsLoop_solid _ _ _ Hall). simpl.
  rewrite range_concat. by destruct t.
Qed.

Lemma Fields_nil f : Fields f = [] ↔ spaces f.
Proof.
  split.
  - apply fieldsLoop_nil, range_nonempty.
  - apply fieldsLoop_spaces.
Qed.

Lemma Fields_head f t more : Fields f = t :: more → FirstToken f t.
Proof.
  intros H. apply fieldsLoop_head in H
    as (sps & ts & rest & Hr & Hsps & Hts & -> & Hne & Hrest);
    [|apply range_nonempty].
  destruct (range_cut _ _ _ Hr) as [Hsp Htr].
  destruct (range_cut _ _ _ Htr) as [Ht Hre].
  exists (concat (map snd sps)), (concat (map snd rest)). split_and!.
  - rewrite <- (range_concat f), Hr. by rewrite !map_app, !concat_app.
  - unfold spaces. by rewrite Hsp.
  - split; [done|]. by rewrite Ht.
  - unfold spaceFirst. rewrite Hre. by destruct rest.
Qed.

Lemma fieldsLoop_skip f sps rs :
  Forall (fun rb => f rb.1 = true) sps →
  fieldsLoop f [] (sps ++ rs) = fieldsLoop f [] rs.
Proof.
  induction 1 as [|[r bs] sps Hr _ IH]; [done|].
  simpl in *. by rewrite Hr.
Qed.

Lemma fieldsLoop_token f cur ts rest :
  Forall (fun rb => f rb.1 = false) ts → spaceHead f rest →
  cur ++ concat (map snd ts) ≠ [] →
  fieldsLoop f cur (ts ++ rest)
  = (cur ++ concat (map snd ts)) :: fieldsLoop f [] rest.
Proof.
  intros Hts Hrest. revert cur.
  induction Hts as [|[r bs] ts Hr _ IH]; intros cur Hne; simpl in *.
  - rewrite app_nil_r in *. destruct rest as [|[r bs] rest]; simpl in *.
    + by destruct cur.
    + rewrite Hrest. by destruct cur.
  - rewrite Hr. rewrite IH; rewrite <- app_assoc; done.
Qed.

(** The first token in the sense of the specification is the first field
    that [strings.Fields] returns. *)
Lemma FirstToken_Fields f t :
  FirstToken f t → ∃ more, Fields f = t :: more.
Proof.
  intros (sp & rest & -> & Hsp & [Hne Ht] & Hrest).
  unfold Fields, FieldsFunc.
  rewrite range_app.
  2:{ left. eapply Forall_impl; [exact Hsp|].
      intros rb. apply IsSpace_valid. }
  rewrite range_app.
  2:{ right. intros c b' ->. unfold spaceFirst in Hrest.
      destruct (utf8.DecodeRuneInString (c :: b')) as [r w] eqn:Hd.
      rewrite (range_unfold _ r w) in Hrest by done. simpl in Hrest.
      destruct (utf8.cont (byteval c)) eqn:Hc; [exfalso|done].
      revert Hd Hc.
      unfold utf8.DecodeRuneInString, utf8.first, utf8.cont.
      repeat case_match; simplify_eq; intros [= <- <-] ?;
        try done; zbool; lia. }
  rewrite (fieldsLoop_skip _ _ _ Hsp).
  rewrite (fieldsLoop_token _ [] _ _ Ht).
  - simpl. rewrite range_concat. by eexists.
  - unfold spaceFirst in Hrest. by destruct (utf8.range rest).
  - simpl. by rewrite range_concat.
Qed.

Lemma Split_nonnil s sep : Split s sep ≠ [].
Proof. destruct s as [|c s]; simpl; [done|]. repeat case_match; done. Qed.

Lemma Join_cons e es sep :
  es ≠ [] → Join (e :: es) sep = e ++ sep ++ Join es sep.
Proof. by destruct es. Qed.

Lemma Join_Split s sep : Join (Split s sep) [sep] = s.
Proof.
  induction s as [|c s IH]; [done|]. simpl.
  pose proof (Split_nonnil s sep) as Hne.
  case_decide as Hc.
  - subst c. rewrite Join_cons; [|done]. simpl. by rewrite IH.
  - destruct (Split s sep) as [|f fs]; [done|].
    destruct fs as [|f' fs].
    + simpl in *. by rewrite IH.
    + rewrite Join_cons in IH; [|done]. rewrite Join_cons; [|done].
      by rewrite <- IH.
Qed.

Lemma Split_free s sep : Forall (fun f => sep ∉ f) (Split s sep).
Proof.
  induction s as [|c s IH]; simpl.
  - constructor; [|constructor]. by intros ?%elem_of_nil.
  - case_decide as Hc.
    + constructor; [|done]. by intros ?%elem_of_nil.
    + destruct (Split s sep) as [|f fs]; simpl.
      * constructor; [|constructor].
        intros [->|?%elem_of_nil]%elem_of_cons; done.
      * inversion_clear IH as [|? ? Hf Hfs].
        constructor; [|done].
        intros [->|?]%elem_of_cons; done.
Qed.

Lemma Split_app_free a sep s :
  sep ∉ a → Split (a ++ sep :: s) sep = a :: Split s sep.
Proof.
  induction a as [|c a IH]; intros Ha; simpl.
  - by rewrite decide_True.
  - rewrite decide_False; [|intros ->; apply Ha; left].
    rewrite IH; [done|]. intros ?. apply Ha. by right.
Qed.

Lemma Split_free_id a sep : sep ∉ a → Split a sep = [a].
Proof.
  induction a as [|c a IH]; intros Ha; simpl; [done|].
  rewrite decide_False; [|intros ->; apply Ha; left].
  rewrite IH; [done|]. intros ?. apply Ha. by right.
Qed.

Lemma Split_Join types sep :
  types ≠ [] → Forall (fun t => sep ∉ t) types →
  Split (Join types [sep]) sep = types.
Proof.
  intros Hne Hall. induction Hall as [|t ts Ht Hts IH]; [done|].
  destruct ts as [|t' ts].
  - simpl. by apply Split_free_id.
  - rewrite Join_cons; [|done].
    etrans; [apply (Split_app_free t sep (Join (t' :: ts) [sep]) Ht)|].
    by rewrite IH.
Qed.

End Strings.

(** ** [formatSignature] *)
Section Signatures.
Import regexp strings canonical global_events.

Lemma Find_here p s caps rest :
  matchHere p s = Some (caps, rest) →
  FindStringSubmatch p s = take (length s - length rest) s :: caps.
Proof. intros H. destruct s; simpl; by rewrite H. Qed.

Lemma Find_skip p c s :
  matchHere p (c :: s) = None →
  FindStringSubmatch p (c :: s) = FindStringSubmatch p s.
Proof. intros H. cbn [FindStringSubmatch]. by rewrite H. Qed.

(** What the search finds in any text: nothing, when the pattern matches
    at no position, or the leftmost match. *)
Lemma Find_spec s :
  (FindStringSubmatch r s = [] ∧ ∀ k, matchHere r (drop k s) = None)
  ∨ ∃ pre name ws params post,
      s = pre ++ name ++ ws ++ "("%char :: params ++ ")"%char :: post
      ∧ name ≠ [] ∧ word name ∧ blank ws ∧ (")"%char ∉ params)
      ∧ (∀ k, (k < length pre)%nat → matchHere r (drop k s) = None)
      ∧ FindStringSubmatch r s
        = [name ++ ws ++ "("%char :: params ++ [")"%char]; name; params].
Proof.
  induction s as [|c s IH].
  - left. split; [done|]. intros k. by rewrite drop_nil.
  - destruct (matchHere r (c :: s)) as [[caps rest]|] eqn:Hm.
    + right. pose proof Hm as Hf. apply Find_here in Hf.
      apply matchHere_r_inv in Hm
        as (name & ws & params & Hs & -> & ? & ? & ? & ?).
      exists [], name, ws, params, rest. split_and!; try done.
      * simpl. intros k ?. lia.
      * rewrite Hf. f_equal. rewrite Hs.
        replace (name ++ ws ++ "("%char :: params ++ ")"%char :: rest)
          with ((name ++ ws ++ "("%char :: params ++ [")"%char]) ++ rest)
          by (by rewrite <- !app_assoc; simpl; rewrite <- !app_assoc).
        rewrite length_app, Nat.add_sub. apply take_app_length.
    + rewrite (Find_skip _ _ _ Hm).
      destruct IH as [[Hnil Hnone]|
        (pre & name & ws & params & post & -> & ? & ? & ? & ? & Hleft & Hf)].
      * left. split; [done|]. intros [|k]; [done|]. apply Hnone.
      * right. exists (c :: pre), name, ws, params, post.
        split_and!; try done.
        intros [|k] Hk; [done|]. simpl in *. apply Hleft. lia.
Qed.

(** The loop of [formatSignature] keeps the first token of each field that
    has one. *)
Lemma cleanParams_acc acc fs :
  foldl addParam acc fs = acc ++ foldl addParam [] fs.
Proof.
  revert acc. induction fs as [|f fs IH]; intros acc; simpl.
  - by rewrite app_nil_r.
  - rewrite IH. rewrite (IH (addParam [] f)). unfold addParam.
    destruct (Fields f); simpl; [done|]. by rewrite <- app_assoc.
Qed.

Lemma cleanParams_clean fs : CleanTypes fs (foldl addParam [] fs).
Proof.
  induction fs as [|f fs IH]; simpl; [constructor|].
  rewrite cleanParams_acc. unfold addParam.
  destruct (Fields f) as [|t more] eqn:Hf; simpl.
  - apply clean_skip; [|done]. by apply Fields_nil.
  - apply clean_keep; [|done]. by eapply Fields_head.
Qed.

Lemma cleanParams_types types :
  Forall (fun t => solid t) types → foldl addParam [] types = types.
Proof.
  induction 1 as [|t ts Ht _ IH]; simpl; [done|].
  rewrite cleanParams_acc, IH. unfold addParam.
  by rewrite (Fields_solid t Ht).
Qed.

(** The types that the specification admits for a list of fields are
    those that the loop of [formatSignature] collects, and no others. *)
Lemma CleanTypes_unique fs ts :
  CleanTypes fs ts → ts = foldl addParam [] fs.
Proof.
  induction 1 as [|f fs ts Hf _ IH|f fs t ts Hf _ IH]; simpl; [done|..];
    rewrite cleanParams_acc; unfold addParam.
  - apply Fields_nil in Hf. by rewrite Hf.
  - apply FirstToken_Fields in Hf as [more Hf]. rewrite Hf.
    simpl. by rewrite IH.
Qed.

Lemma formatSignature_found s whole name params :
  FindStringSubmatch r s = [whole; name; params] →
  formatSignature s
  = name ++ bytes "(" ++
    Join (foldl addParam [] (Split params ","%char)) (bytes ",")
    ++ bytes ")".
Proof. intros H. unfold formatSignature. by rewrite H. Qed.

Lemma formatSignature_none s :
  FindStringSubmatch r s = [] → formatSignature s = [].
Proof. intros H. unfold formatSignature. by rewrite H. Qed.

Lemma Find_shape name ws params rest :
  name ≠ [] → word name → blank ws → ")"%char ∉ params →
  FindStringSubmatch r (name ++ ws ++ bytes "(" ++ params ++ bytes ")" ++ rest)
  = [name ++ ws ++ "("%char :: params ++ [")"%char]; name; params].
Proof.
  intros Hne Hw Hb Hp.
  pose proof (matchHere_r_intro name ws params rest Hne Hw Hb Hp) as Hm.
  change (name ++ ws ++ bytes "(" ++ params ++ bytes ")" ++ rest)
    with (name ++ ws ++ "("%char :: params ++ ")"%char :: rest).
  rewrite (Find_here _ _ _ _ Hm). f_equal.
  replace (name ++ ws ++ "("%char :: params ++ ")"%char :: rest)
    with ((name ++ ws ++ "("%char :: params ++ [")"%char]) ++ rest)
    by (by rewrite <- !app_assoc; simpl; rewrite <- !app_assoc).
  rewrite length_app, Nat.add_sub. apply take_app_length.
Qed.

Lemma CleanTypes_solid fs ts : CleanTypes fs ts → Forall solid ts.
Proof.
  induction 1 as [| |f fs t ts (sp & rest & _ & _ & Ht & _) _ IH];
    [constructor|done|by constructor].
Qed.

Lemma Join_free (c : ascii) types sep :
  Forall (fun t => c ∉ t) types → c ∉ sep → c ∉ Join types sep.
Proof.
  intros Hall Hsep. induction Hall as [|t ts Ht _ IH].
  - by intros ?%elem_of_nil.
  - destruct ts as [|t' ts]; [done|]. rewrite Join_cons; [|done].
    rewrite !elem_of_app. tauto.
Qed.

Lemma formatSignature_shape name ws params rest :
  name ≠ [] → word name → blank ws → ")"%char ∉ params →
  formatSignature (name ++ ws ++ bytes "(" ++ params ++ bytes ")" ++ rest)
  = name ++ bytes "(" ++
    Join (foldl addParam [] (Split params ","%char)) (bytes ",")
    ++ bytes ")".
Proof.
  intros. eapply formatSignature_found. by apply Find_shape.
Qed.

Lemma formatSignature_nonempty s whole name params :
  FindStringSubmatch r s = [whole; name; params] → formatSignature s ≠ [].
Proof.
  intros H. rewrite (formatSignature_found _ _ _ _ H).
  intros E. apply (f_equal length) in E.
  rewrite !length_app in E. simpl in E. lia.
Qed.

Lemma formatSignature_canonical name types :
  name ≠ [] → word name → Forall type types →
  formatSignature
    (name ++ bytes "(" ++ Join types (bytes ",") ++ bytes ")")
  = name ++ bytes "(" ++ Join types (bytes ",") ++ bytes ")".
Proof.
  intros Hne Hw Htypes.
  assert (Hclose : ")"%char ∉ Join types (bytes ",")).
  { apply Join_free.
    - eapply Forall_impl; [exact Htypes|]. by intros t (_ & _ & ?).
    - by intros [?|?%elem_of_nil]%elem_of_cons. }
  pose proof (formatSignature_shape name [] _ [] Hne Hw
                ltac:(constructor) Hclose) as H.
  simpl in H. simpl. rewrite H. do 2 f_equal.
  destruct (decide (types = [])) as [->|Hty]; [done|].
  change (bytes ",") with [","%char].
  rewrite Split_Join; [| done |].
  - rewrite cleanParams_types; [done|].
    eapply Forall_impl; [exact Htypes|]. by intros t (? & _).
  - eapply Forall_impl; [exact Htypes|]. by intros t (_ & ? & _).
Qed.

Lemma elem_of_Join (c : ascii) f fs sep :
  f ∈ fs → c ∈ f → c ∈ Join fs sep.
Proof.
  intros Hf Hc. induction fs as [|f' fs IH]; [by apply elem_of_nil in Hf|].
  destruct (decide (fs = [])) as [->|Hfs].
  - apply list_elem_of_singleton in Hf as ->. done.
  - rewrite Join_cons by done. rewrite !elem_of_app.
    apply elem_of_cons in Hf as [->|Hf]; [by left|]. right. right. by apply IH.
Qed.

Lemma CleanTypes_part fs ts :
  CleanTypes fs ts →
  Forall (fun t => solid t ∧ ∃ f sp rest, f ∈ fs ∧ f = sp ++ t ++ rest) ts.
Proof.
  induction 1 as [|f fs ts _ _ IH|f fs t ts (sp & rest & Hf & _ & Ht & _) _ IH].
  - constructor.
  - eapply Forall_impl; [exact IH|].
    intros t (? & f' & sp & rest & ? & ?). split; [done|].
    exists f', sp, rest. split; [by right|done].
  - constructor.
    + split; [done|]. exists f, sp, rest. split; [by left|done].
    + eapply Forall_impl; [exact IH|].
      intros t' (? & f' & sp' & rest' & ? & ?). split; [done|].
      exists f', sp', rest'. split; [by right|done].
Qed.

(** Whatever [formatSignature] returns, the empty string apart, is in
    canonical form. *)
Lemma formatSignature_Canonical s :
  formatSignature s ≠ [] → Canonical (formatSignature s).
Proof.
  intros Hne.
  destruct (Find_spec s) as [[Hnil _]|
    (pre & name & ws & params & post & _ & ? & ? & ? & Hclose & _ & Hf)].
  { by rewrite (formatSignature_none _ Hnil) in Hne. }
  rewrite (formatSignature_found _ _ _ _ Hf).
  exists name, (foldl addParam [] (Split params ","%char)).
  split_and!; try done.
  pose proof (CleanTypes_part _ _ (cleanParams_clean (Split params ","%char)))
    as Hparts.
  eapply Forall_impl; [exact Hparts|].
  intros t (Ht & f & sp & rest & Hin & ->). split_and!; [done|..].
  - intros Hc.
    pose proof (Split_free params ","%char) as Hfree.
    rewrite Forall_forall in Hfree. apply (Hfree _ Hin).
    rewrite !elem_of_app. tauto.
  - intros Hc. apply Hclose.
    rewrite <- (Join_Split params ","%char).
    apply (elem_of_Join _ (sp ++ t ++ rest)); [done|].
    rewrite !elem_of_app. tauto.
Qed.

(** Formatting twice is formatting once. *)
Lemma formatSignature_twice s :
  formatSignature (formatSignature s) = formatSignature s.
Proof.
  destruct (decide (formatSignature s = [])) as [E|Hne].
  - rewrite E. reflexivity.
  - destruct (formatSignature_Canonical s Hne)
      as (name & types & -> & ? & ? & ?).
    by apply formatSignature_canonical.
Qed.

End Signatures.

(** ** Keccak-256 and [FormatAndHash] *)
Section Hashing.
Import crypto common global_events.

Lemma build_length f : length (build f) = 25%nat.
Proof. unfold build. by rewrite length_map, length_seq. Qed.

Lemma round_length A rc : length (round A rc) = 25%nat.
Proof.
  unfold round. pose proof (build_length
    (fun x y => Z.lxor (lane (rhopi (theta A)) x y)
       (Z.land (Z.lxor (lane (rhopi (theta A)) (x + 1) y) mask64)
               (lane (rhopi (theta A)) (x + 2) y)))) as H.
  fold (chi (rhopi (theta A))) in H.
  destruct (chi (rhopi (theta A))); [done|]. done.
Qed.

Lemma rounds_length rcs A :
  rcs ≠ [] → length (foldl round A rcs) = 25%nat.
Proof.
  revert A. induction rcs as [|rc rcs IH]; intros A Hne; [done|].
  cbn [foldl]. destruct (decide (rcs = [])) as [->|Hrcs].
  - apply round_length.
  - by apply IH.
Qed.

Lemma keccakF1600_length A : length (keccakF1600 A) = 25%nat.
Proof. unfold keccakF1600. by apply rounds_length. Qed.

Lemma sponge_length blocks A :
  length A = 25%nat → length (foldl absorb A blocks) = 25%nat.
Proof.
  revert A. induction blocks as [|b blocks IH]; intros A HA; [done|].
  cbn [foldl]. apply IH. unfold absorb. apply keccakF1600_length.
Qed.

Lemma squeeze_length (A : list Z) :
  length (flat_map store64 A) = (8 * length A)%nat.
Proof.
  induction A as [|a A IH]; [done|].
  cbn [flat_map]. rewrite length_app, IH.
  unfold store64. rewrite length_map, length_seq. simpl. lia.
Qed.

Lemma Keccak256_length data : length (Keccak256 data) = 32%nat.
Proof.
  unfold Keccak256. rewrite length_map, length_take, squeeze_length.
  rewrite sponge_length; [done|]. by rewrite length_replicate.
Qed.

Lemma BytesToHash_id b : length b = HashLength → BytesToHash b = b.
Proof.
  intros Hb. unfold BytesToHash. rewrite Hb, Nat.sub_diag, drop_0.
  by rewrite Hb, Nat.sub_diag.
Qed.

Lemma FormatAndHash_done s :
  formatSignature s ≠ [] →
  FormatAndHash s = Done (Keccak256 (formatSignature s)).
Proof.
  intros Hne. unfold FormatAndHash.
  destruct (formatSignature s) as [|c f] eqn:E; [done|].
  by rewrite BytesToHash_id by apply Keccak256_length.
Qed.

Lemma FormatAndHash_panic s :
  formatSignature s = [] → FormatAndHash s = Panicked "Invalid signature".
Proof. intros E. unfold FormatAndHash. by rewrite E. Qed.

End Hashing.

(** * The canonical form of a signature *)
Section CanonicalSignatures.
Import regexp strings canonical global_events.

(** C1.  A signature of the shape [name(params)], the name a word, white
    space allowed before the parenthesis, no closing parenthesis inside
    [params], whatever follows: [formatSignature] returns
    [name(type1,...,typen)], the types joined by commas alone, where the
    types come from the comma-separated fields of [params] in order, a
    field of white space only giving no type and any other its first
    white-space-separated token.  Each type is free of white space, the
    types are the only ones that fit this description, and an empty
    parameter list gives none. *)
Theorem formatSignature_strips_names name ws params rest :
  name ≠ [] → word name → blank ws → ")"%char ∉ params →
  ∃ fields types,
    params = Join fields (bytes ",")
    ∧ Forall (fun f => ","%char ∉ f) fields
    ∧ CleanTypes fields types
    ∧ (∀ types', CleanTypes fields types' → types' = types)
    ∧ Forall solid types
    ∧ (params = [] → types = [])
    ∧ formatSignature
        (name ++ ws ++ bytes "(" ++ params ++ bytes ")" ++ rest)
      = name ++ bytes "(" ++ Join types (bytes ",") ++ bytes ")".
Proof.
  intros Hne Hw Hb Hp.
  exists (Split params ","%char),
         (foldl addParam [] (Split params ","%char)).
  split_and!.
  - symmetry. apply Join_Split.
  - apply Split_free.
  - apply cleanParams_clean.
  - intros types'. apply CleanTypes_unique.
  - eapply CleanTypes_solid, cleanParams_clean.
  - by intros ->.
  - by apply formatSignature_shape.
Qed.

Lemma formatSignature_strips_names_witness :
  ∃ fields types,
    bytes "address owner, uint256 amount" = Join fields (bytes ",")
    ∧ Forall (fun f => ","%char ∉ f) fields
    ∧ CleanTypes fields types
    ∧ (∀ types', CleanTypes fields types' → types' = types)
    ∧ Forall solid types
    ∧ (bytes "address owner, uint256 amount" = [] → types = [])
    ∧ formatSignature
        (bytes "transfer" ++ [] ++ bytes "(" ++
         bytes "address owner, uint256 amount" ++ bytes ")" ++ [])
      = bytes "transfer" ++ bytes "(" ++ Join types (bytes ",")
        ++ bytes ")".
Proof.
  apply (formatSignature_strips_names
           (bytes "transfer") [] (bytes "address owner, uint256 amount") []).
  - discriminate.
  - unfold word. evaluated.
  - constructor.
  - evaluated.
Defined.

(** C9.  A signature in canonical form, a word followed by the types in
    parentheses, each type not empty and free of white space, commas and
    closing parentheses, the types separated by single commas, is
    returned unchanged by [formatSignature]. *)
Theorem formatSignature_idempotent s :
  Canonical s → formatSignature s = s.
Proof.
  intros (name & types & -> & Hne & Hw & Htypes).
  by apply formatSignature_canonical.
Qed.

Lemma formatSignature_idempotent_witness :
  formatSignature (bytes "transfer(address,uint256)")
  = bytes "transfer(address,uint256)".
Proof.
  apply (formatSignature_idempotent (bytes "transfer(address,uint256)")).
  exists (bytes "transfer"), [bytes "address"; bytes "uint256"].
  split_and!.
  - reflexivity.
  - discriminate.
  - unfold word. evaluated.
  - unfold type, solid. evaluated.
Defined.

(** C10, as the code has it.  For every input, either the pattern matches
    nowhere and [formatSignature] returns the empty string, or the input
    is [pre name ws ( params ) post], with [name] a word, [ws] white
    space, no match starting inside [pre], and [params] running to the
    first closing parenthesis after its opening one.  The result is then
    that of [name(params)] alone and is not empty: whatever follows that
    closing parenthesis is dropped, and nothing is signalled. *)
Theorem formatSignature_truncates s :
  (FindStringSubmatch r s = [] ∧ formatSignature s = [])
  ∨ ∃ pre name ws params post,
      s = pre ++ name ++ ws ++ bytes "(" ++ params ++ bytes ")" ++ post
      ∧ name ≠ [] ∧ word name ∧ blank ws ∧ (")"%char ∉ params)
      ∧ (∀ k, (k < length pre)%nat → matchHere r (drop k s) = None)
      ∧ formatSignature s
        = formatSignature (name ++ bytes "(" ++ params ++ bytes ")")
      ∧ formatSignature s ≠ [].
Proof.
  destruct (Find_spec s) as [[Hnil _]|
    (pre & name & ws & params & post & Hs & ? & ? & ? & ? & Hleft & Hf)].
  - left. split; [done|]. by apply formatSignature_none.
  - right. exists pre, name, ws, params, post. split_and!; try done.
    + rewrite (formatSignature_found _ _ _ _ Hf).
      pose proof (formatSignature_shape name [] params []) as H'.
      simpl in H'. simpl. by rewrite H' by (done || constructor).
    + by eapply formatSignature_nonempty.
Qed.

(** C10, the tuple of the claim: the parameter list is cut at the first
    closing parenthesis, and [bool b] is lost. *)
Example formatSignature_tuple :
  formatSignature (bytes "f((uint256,address) x, bool b)")
  = bytes "f((uint256,address)".
Proof. vm_compute. reflexivity. Qed.

(** C10, as stated, fails: in [a) f(b)] the first closing parenthesis of
    the input comes before the match, and the parameter segment [b] of
    the match [f(b)] ends at the second one. *)
Lemma formatSignature_not_first_close :
  FindStringSubmatch r (bytes "a) f(b)")
  = [bytes "f(b)"; bytes "f"; bytes "b"]
  ∧ formatSignature (bytes "a) f(b)") = bytes "f(b)"
  ∧ ¬ endsAtFirstClose (bytes "a) f(b)") (bytes "b").
Proof.
  split_and!; [by vm_compute..|].
  intros (pre & post & E & Hnot).
  destruct pre as [|p0 [|p1 pre]]; simpl in E.
  - discriminate.
  - discriminate.
  - injection E as _ <- _. apply Hnot. set_solver.
Qed.

End CanonicalSignatures.

(** * Topics *)
Section Topics.
Import regexp canonical global_events.

(** C2.  Two signatures with the same canonical form, which is not empty,
    hash to the same topic: the 32 bytes of the legacy Keccak-256 hash of
    the bytes of the canonical form.  Nothing but those bytes enters the
    hash. *)
Theorem FormatAndHash_deterministic s1 s2 :
  formatSignature s1 ≠ [] →
  formatSignature s1 = formatSignature s2 →
  ∃ h, FormatAndHash s1 = Done h
       ∧ FormatAndHash s2 = Done h
       ∧ h = crypto.Keccak256 (formatSignature s1)
       ∧ length h = 32%nat.
Proof.
  intros Hne Heq. exists (crypto.Keccak256 (formatSignature s1)).
  split_and!.
  - by apply FormatAndHash_done.
  - rewrite Heq. apply FormatAndHash_done. by rewrite <- Heq.
  - done.
  - apply Keccak256_length.
Qed.

Lemma FormatAndHash_deterministic_witness :
  ∃ h, FormatAndHash (bytes "transfer(address owner, uint256 amount)")
       = Done h
       ∧ FormatAndHash (bytes "transfer(address,uint256)") = Done h
       ∧ h = crypto.Keccak256
               (formatSignature
                  (bytes "transfer(address owner, uint256 amount)"))
       ∧ length h = 32%nat.
Proof.
  apply (FormatAndHash_deterministic
           (bytes "transfer(address owner, uint256 amount)")
           (bytes "transfer(address,uint256)")).
  - vm_compute. discriminate.
  - vm_compute. reflexivity.
Defined.

(** The topic of the ERC-20 [Transfer] event, from a signature with
    parameter names. *)
Example FormatAndHash_Transfer :
  FormatAndHash
    (bytes "Transfer(address from, address to, uint256 value)")
  = Done (map byteof
      [0xdd; 0xf2; 0x52; 0xad; 0x1b; 0xe2; 0xc8; 0x9b;
       0x69; 0xc2; 0xb0; 0x68; 0xfc; 0x37; 0x8d; 0xaa;
       0x95; 0x2b; 0xa7; 0xf1; 0x63; 0xc4; 0xa1; 0x16;
       0x28; 0xf5; 0x5a; 0x4d; 0xf5; 0x23; 0xb3; 0xef]).
Proof. vm_compute. reflexivity. Qed.

(** C8, as the code has it.  A signature in which the pattern matches
    nowhere, the empty one among them, makes [formatSignature] return the
    empty string and [FormatAndHash] panic with [Invalid signature]; every
    other signature has a canonical form that is not empty and a topic.
    No failure is returned as a value. *)
Theorem FormatAndHash_panics_when_unparsable s :
  (FindStringSubmatch r s = []
   ∧ formatSignature s = []
   ∧ FormatAndHash s = Panicked "Invalid signature")
  ∨ (FindStringSubmatch r s ≠ []
     ∧ formatSignature s ≠ []
     ∧ ∃ h, FormatAndHash s = Done h).
Proof.
  destruct (Find_spec s) as [[Hnil _]|
    (pre & name & ws & params & post & _ & _ & _ & _ & _ & _ & Hf)].
  - left. split_and!; [done|by apply formatSignature_none|].
    by apply FormatAndHash_panic, formatSignature_none.
  - right. pose proof (formatSignature_nonempty _ _ _ _ Hf) as Hne.
    split_and!; [by rewrite Hf|done|].
    eexists. by apply FormatAndHash_done.
Qed.

(** C8, as stated, fails: hashing the empty signature panics. *)
Lemma FormatAndHash_empty_panics :
  FormatAndHash (bytes "") = Panicked "Invalid signature"
  ∧ FormatAndHash (bytes "transfer") = Panicked "Invalid signature".
Proof. split; vm_compute; reflexivity. Qed.

End Topics.

(** * The event matcher of [global_events] *)
Section Matching.
Import global_events.

Lemma addressLoop_elem address addrs :
  addressLoop address addrs = true ↔ address ∈ addrs.
Proof.
  induction addrs as [|addr addrs IH]; simpl.
  - split; [done|]. by intros ?%elem_of_nil.
  - rewrite elem_of_cons. case_decide as Ha.
    + subst. tauto.
    + rewrite IH. split; [tauto|]. intros [?|?]; [by subst|done].
Qed.

(** C4.  A rule accepts the address of a log exactly when the rule has no
    addresses or the address is among them, by equality of the 20
    bytes. *)
Theorem isAddressIntoConfig_scope address config :
  isAddressIntoConfig address config = true
  ↔ Addresses config = [] ∨ address ∈ Addresses config.
Proof.
  unfold isAddressIntoConfig.
  destruct (Addresses config) as [|a addrs]; simpl.
  - tauto.
  - change (if decide (a = address) then true
            else addressLoop address addrs)
      with (addressLoop address (a :: addrs)).
    rewrite addressLoop_elem. split; [by right|]. by intros [?|?].
Qed.

Lemma forRange_unchanged {A} (l : list A) (body : A → M unit) reg :
  Forall (fun x => body x reg = (Done tt, reg)) l →
  forRange l body reg = (Done tt, reg).
Proof.
  induction 1 as [|x l Hx _ IH]; [done|].
  simpl. unfold bind. by rewrite Hx.
Qed.

Section Lookup.
Variable lookup : GlobalConfiguration → common.Hash → Configuration.

Lemma checkLog_anonymous m vLog reg :
  Topics vLog = [] → checkLog lookup m vLog reg = (Done tt, reg).
Proof. intros H. unfold checkLog. by rewrite H. Qed.

Lemma checkLog_hit m vLog reg topic0 topics event0 events :
  Topics vLog = topic0 :: topics →
  Events (lookup (globalconfig m) topic0) = event0 :: events →
  isAddressIntoConfig (Address vLog) (lookup (globalconfig m) topic0)
  = true →
  checkLog lookup m vLog reg
  = (Done tt,
     prometheus.Set_ "eventEmitted"
       [nickname m; Name (lookup (globalconfig m) topic0);
        Priority (lookup (globalconfig m) topic0);
        Signature event0; common.Hex (Address vLog)] 1 reg).
Proof.
  intros Ht He Ha. unfold checkLog. rewrite Ht, He, Ha. reflexivity.
Qed.

(** C3.  A log without topics leaves the registry as it was, whatever
    the rules and whatever the lookup; a tick whose logs are all
    without topics sets no gauge and counts no error. *)
Theorem anonymous_logs_never_match m reg h logs :
  HeaderByNumber (l1Client m) = (Some h, None) →
  FilterLogs (l1Client m) (mkFilterQuery (Number h) (Number h))
  = (logs, None) →
  Forall (fun vLog => Topics vLog = []) logs →
  Forall (fun vLog => checkLog lookup m vLog reg = (Done tt, reg)) logs
  ∧ checkEvents lookup m reg = (Done tt, reg).
Proof.
  intros Hh Hl Hlogs.
  assert (Hall : Forall (fun vLog => checkLog lookup m vLog reg
                                     = (Done tt, reg)) logs).
  { eapply Forall_impl; [exact Hlogs|].
    intros vLog. apply checkLog_anonymous. }
  split; [done|].
  unfold checkEvents. rewrite Hh, Hl. by apply forRange_unchanged.
Qed.

(** C5, as the code has it.  A log leaves the registry as it was or sets
    one sample: that of the one rule that the lookup returns for the
    first topic, provided the rule has events and accepts the address.
    No second rule is consulted, so a rule that shares the signature
    of the rule returned gets no sample of its own. *)
Theorem one_sample_per_log m vLog reg :
  checkLog lookup m vLog reg = (Done tt, reg)
  ∨ ∃ topic0 topics event0 events,
      Topics vLog = topic0 :: topics
      ∧ Events (lookup (globalconfig m) topic0) = event0 :: events
      ∧ isAddressIntoConfig (Address vLog)
          (lookup (globalconfig m) topic0) = true
      ∧ checkLog lookup m vLog reg
        = (Done tt,
           prometheus.Set_ "eventEmitted"
             [nickname m; Name (lookup (globalconfig m) topic0);
              Priority (lookup (globalconfig m) topic0);
              Signature event0; common.Hex (Address vLog)] 1 reg).
Proof.
  unfold checkLog.
  destruct (Topics vLog) as [|topic0 topics]; [by left|].
  destruct (Events (lookup (globalconfig m) topic0))
    as [|event0 events] eqn:He; [by left|].
  simpl.
  destruct (isAddressIntoConfig (Address vLog)
              (lookup (globalconfig m) topic0)) eqn:Ha; [|by left].
  right. by exists topic0, topics, event0, events.
Qed.

(** A failed log fetch: one error is counted under [L1], [FilterLogs],
    and the registry is otherwise as it was. *)
Lemma checkEvents_FilterLogs_error m reg h logs e :
  HeaderByNumber (l1Client m) = (Some h, None) →
  FilterLogs (l1Client m) (mkFilterQuery (Number h) (Number h))
  = (logs, Some e) →
  checkEvents lookup m reg
  = (Done tt,
     prometheus.Inc "unexpectedRpcErrors"
       [bytes "L1"; bytes "FilterLogs"] reg).
Proof. intros Hh Hl. unfold checkEvents. by rewrite Hh, Hl. Qed.

Lemma checkEvents_HeaderByNumber_error m reg header e :
  HeaderByNumber (l1Client m) = (header, Some e) →
  checkEvents lookup m reg
  = (Done tt,
     prometheus.Inc "unexpectedRpcErrors"
       [bytes "L1"; bytes "HeaderByNumber"] reg).
Proof. intros Hh. unfold checkEvents. by rewrite Hh. Qed.

End Lookup.

Lemma Inc_gauges vec lvs reg :
  prometheus.gauges (prometheus.Inc vec lvs reg) = prometheus.gauges reg.
Proof. done. Qed.

Lemma Inc_count vec lvs reg :
  prometheus.count (prometheus.Inc vec lvs reg) vec lvs
  = S (prometheus.count reg vec lvs).
Proof.
  unfold prometheus.count at 1, prometheus.Inc. simpl.
  by rewrite lookup_insert_eq.
Qed.

Lemma Inc_count_ne vec lvs vec' lvs' reg :
  (vec, lvs) ≠ (vec', lvs') →
  prometheus.count (prometheus.Inc vec lvs reg) vec' lvs'
  = prometheus.count reg vec' lvs'.
Proof.
  intros Hne. unfold prometheus.count, prometheus.Inc. simpl.
  by rewrite lookup_insert_ne.
Qed.

End Matching.

Section Scenarios.
Import global_events scenario.

Lemma anonymous_logs_never_match_witness :
  Forall (fun vLog =>
            checkLog SearchIfATopicIsInsideAnAlert
              (monitor [anonymousLog; anonymousLog]) vLog prometheus.empty
            = (Done tt, prometheus.empty))
         [anonymousLog; anonymousLog]
  ∧ checkEvents SearchIfATopicIsInsideAnAlert
      (monitor [anonymousLog; anonymousLog]) prometheus.empty
    = (Done tt, prometheus.empty).
Proof.
  apply (anonymous_logs_never_match SearchIfATopicIsInsideAnAlert
           (monitor [anonymousLog; anonymousLog]) prometheus.empty
           (mkHeader 100) [anonymousLog; anonymousLog]).
  - reflexivity.
  - reflexivity.
  - repeat constructor.
Defined.

Lemma search_topic : SearchIfATopicIsInsideAnAlert rules topic = R1.
Proof. vm_compute. reflexivity. Qed.

Lemma Hex_token :
  common.Hex token = bytes "0x5aAeb6053F3E94C9b9A09f33669435E7Ef1BeAed".
Proof. vm_compute. reflexivity. Qed.

Lemma hashes_transfer : hashes topic (mkEvent transfer) = true.
Proof. vm_compute. reflexivity. Qed.

(** C5, as stated, fails: [R1] and [R2] name the same event and accept
    every address, one log carries the topic of that event, and the tick
    sets the sample of [R1] and none for [R2]. *)
Lemma shared_signature_single_sample :
  hashes topic (mkEvent transfer) = true
  ∧ isAddressIntoConfig token R1 = true
  ∧ isAddressIntoConfig token R2 = true
  ∧ ∃ reg',
      checkEvents SearchIfATopicIsInsideAnAlert (monitor [transferLog])
        prometheus.empty
      = (Done tt, reg')
      ∧ prometheus.gauges reg' !! ("eventEmitted"%string, labels R1)
        = Some 1
      ∧ prometheus.gauges reg' !! ("eventEmitted"%string, labels R2)
        = None
      ∧ size (prometheus.gauges reg') = 1%nat.
Proof.
  split_and!.
  - exact hashes_transfer.
  - reflexivity.
  - reflexivity.
  - exists (prometheus.Set_ "eventEmitted" (labels R1) 1 prometheus.empty).
    split_and!.
    + unfold checkEvents, monitor, node.
      cbn [l1Client HeaderByNumber FilterLogs forRange]. unfold bind.
      rewrite (checkLog_hit _ _ transferLog _ topic []
                 (mkEvent transfer) []).
      * cbn [globalconfig nickname Address transferLog].
        rewrite search_topic, Hex_token. reflexivity.
      * reflexivity.
      * cbn [globalconfig]. by rewrite search_topic.
      * cbn [globalconfig]. by rewrite search_topic.
    + cbn [prometheus.Set_ prometheus.gauges]. apply lookup_insert_eq.
    + cbn [prometheus.Set_ prometheus.gauges prometheus.empty].
      apply lookup_insert_None. split; [apply lookup_empty|]. intros [=].
    + cbn [prometheus.Set_ prometheus.gauges prometheus.empty].
      rewrite map_size_insert_None by apply lookup_empty.
      by rewrite map_size_empty.
Qed.

End Scenarios.

(** * Conversions to [float64], and the children of a gauge vector *)
Section Floats.

(** Integers of at most 53 bits are doubles. *)
Lemma float64_exact x : Z.abs x <= 2 ^ 53 → float64 x = x.
Proof.
  intros Hx. unfold float64.
  destruct (Z.leb_spec (Z.log2 (Z.abs x) - 52) 0) as [|He]; [done|].
  assert (0 < Z.abs x) as Hpos.
  { destruct (Z.lt_ge_cases 0 (Z.abs x)) as [|Hle]; [done|].
    rewrite (Z.log2_nonpos _ Hle) in He. lia. }
  assert (2 ^ 53 <= Z.abs x) as Hge by (apply Z.log2_le_pow2; lia).
  assert (x = 2 ^ 53 ∨ x = - 2 ^ 53) as [->| ->] by lia; by vm_compute.
Qed.

(** Beyond 53 bits the conversion rounds, ties to even. *)
Example float64_rounds_down : float64 (2 ^ 53 + 1) = 2 ^ 53.
Proof. by vm_compute. Qed.

Example float64_rounds_up : float64 (2 ^ 53 + 3) = 2 ^ 53 + 4.
Proof. by vm_compute. Qed.

Example float64_negative : float64 (- (2 ^ 53 + 1)) = - 2 ^ 53.
Proof. by vm_compute. Qed.

Example float64_MaxUint64 : float64 (2 ^ 64 - 1) = 2 ^ 64.
Proof. by vm_compute. Qed.

Lemma WithLabelValues_counters vec lvs reg :
  prometheus.counters (prometheus.WithLabelValues vec lvs reg)
  = prometheus.counters reg.
Proof. unfold prometheus.WithLabelValues. by case_match. Qed.

Lemma WithLabelValues_count vec lvs reg vec' lvs' :
  prometheus.count (prometheus.WithLabelValues vec lvs reg) vec' lvs'
  = prometheus.count reg vec' lvs'.
Proof. unfold prometheus.count. by rewrite WithLabelValues_counters. Qed.

Lemma WithLabelValues_Inc vec lvs vec' lvs' reg :
  prometheus.gauges
    (prometheus.WithLabelValues vec lvs (prometheus.Inc vec' lvs' reg))
  = prometheus.gauges (prometheus.WithLabelValues vec lvs reg).
Proof.
  unfold prometheus.WithLabelValues, prometheus.Inc.
  cbn [prometheus.gauges]. by case_match.
Qed.

(** The child created by [WithLabelValues] holds 0 when it is new, and what
    it held otherwise; no other sample changes. *)
Lemma WithLabelValues_lookup vec lvs reg k :
  prometheus.gauges (prometheus.WithLabelValues vec lvs reg) !! k
  = if decide (k = (vec, lvs))
    then Some (default 0 (prometheus.gauges reg !! k))
    else prometheus.gauges reg !! k.
Proof.
  unfold prometheus.WithLabelValues.
  destruct (prometheus.gauges reg !! (vec, lvs)) as [v|] eqn:E.
  - case_decide as Hk; [|done]. subst k. by rewrite E.
  - cbn [prometheus.gauges]. case_decide as Hk.
    + subst k. by rewrite lookup_insert_eq, E.
    + by rewrite lookup_insert_ne.
Qed.

(** [Set] on the child writes over what [WithLabelValues] created. *)
Lemma WithLabelValues_Set vec lvs v reg :
  prometheus.Set_ vec lvs v (prometheus.WithLabelValues vec lvs reg)
  = prometheus.Set_ vec lvs v reg.
Proof.
  unfold prometheus.WithLabelValues, prometheus.Set_.
  case_match; [done|]. cbn [prometheus.gauges prometheus.counters].
  by rewrite insert_insert_eq.
Qed.

Lemma bind_done {A B} (c : M A) (k : A → M B) reg a reg1 :
  c reg = (Done a, reg1) → bind c k reg = k a reg1.
Proof. intros H. unfold bind. by rewrite H. Qed.

Lemma bind_panic {A B} (c : M A) (k : A → M B) reg msg reg1 :
  c reg = (Panicked msg, reg1) → bind c k reg = (Panicked msg, reg1).
Proof. intros H. unfold bind. by rewrite H. Qed.

End Floats.

(** * The loops of [liveness_expiration] and [tipmon] *)
Section Liveness.
Import liveness_expiration.

(** An owner whose [lastLive] was read: the sample of the owner is set to
    the low 64 bits converted to [float64]. *)
Lemma lastLiveOf_read m o v reg :
  LastLive (l1 m) o = (Some v, None) →
  lastLiveOf m o reg
  = (Done tt,
     prometheus.Set_ "lastLiveOfAOwner" [common.Hex o]
       (float64 (Z.abs v mod 2 ^ 64)) reg).
Proof.
  intros Hv. unfold lastLiveOf. rewrite Hv.
  unfold whenErr, Uint64, bind, ret, act.
  by rewrite WithLabelValues_Set.
Qed.

Lemma owners_loop m owners reg :
  (∀ o, o ∈ owners → ∃ v, LastLive (l1 m) o = (Some v, None)) →
  ∃ reg', forRange owners (lastLiveOf m) reg = (Done tt, reg')
          ∧ prometheus.counters reg' = prometheus.counters reg.
Proof.
  revert reg. induction owners as [|o owners IH]; intros reg Hall.
  - by exists reg.
  - destruct (Hall o) as [v Hv]; [by left|].
    destruct (IH (prometheus.Set_ "lastLiveOfAOwner" [common.Hex o]
                    (float64 (Z.abs v mod 2 ^ 64)) reg))
      as (reg' & Hrun & Hc).
    { intros o' Ho'. apply Hall. by right. }
    exists reg'. split; [|done].
    cbn [forRange]. by rewrite (bind_done _ _ _ _ _ (lastLiveOf_read _ _ _ _ Hv)).
Qed.

(** C6 fails on the poll of [liveness_expiration].  In a tick where the
    block number cannot be read and the other reads succeed, the error is
    counted once under [l1], [blockNumber], and [Run], whose error branch
    does not return, goes on to set the gauges of the interval and of the
    highest block in that same tick, each to the [float64] of what was
    read. *)
Theorem Run_sets_gauges_after_error m reg h e owners iv :
  BlockNumber (l1 m) = (h, Some e) →
  GetOwners (l1 m) = (owners, None) →
  (∀ o, o ∈ owners → ∃ v, LastLive (l1 m) o = (Some v, None)) →
  LivenessInterval (l1 m) = (Some iv, None) →
  ∃ reg',
    Run m reg = (Done tt, reg')
    ∧ prometheus.count reg' "unexpectedRpcErrors"
        [bytes "l1"; bytes "blockNumber"]
      = S (prometheus.count reg "unexpectedRpcErrors"
             [bytes "l1"; bytes "blockNumber"])
    ∧ prometheus.gauges reg'
        !! ("intervalLiveness"%string, [bytes "interval"])
      = Some (float64 (Z.abs iv mod 2 ^ 64))
    ∧ prometheus.gauges reg'
        !! ("highestBlockNumber"%string, [bytes "blockNumber"])
      = Some (float64 h).
Proof.
  intros Hb Hg Hl Hi.
  destruct (owners_loop m owners
              (prometheus.Inc "unexpectedRpcErrors"
                 [bytes "l1"; bytes "blockNumber"] reg) Hl)
    as (reg1 & Hrun & Hc).
  eexists. split_and!.
  - unfold Run. rewrite Hb, Hg, Hi.
    unfold whenErr, errors, bind, act, ret, Uint64. rewrite Hrun.
    reflexivity.
  - unfold prometheus.count, prometheus.Set_. cbn [prometheus.counters].
    rewrite WithLabelValues_counters, Hc.
    cbn [prometheus.Inc prometheus.counters].
    by rewrite lookup_insert_eq.
  - cbn [prometheus.Set_ prometheus.gauges].
    rewrite lookup_insert_ne by (intros [=]).
    by rewrite lookup_insert_eq.
  - cbn [prometheus.Set_ prometheus.gauges]. by rewrite lookup_insert_eq.
Qed.

(** C7 fails on the poll of [liveness_expiration].  In a tick where the
    read of [lastLive] for the first owner fails and leaves a nil
    [*big.Int], the error is counted, [Run] does not return, and the call
    of [Uint64] on the nil pointer panics.  By then [WithLabelValues] has
    created the sample of that owner, which holds 0 when it is new; no
    gauge has been set, and no other sample has changed. *)
Theorem Run_panics_after_failed_read m reg owner owners e :
  GetOwners (l1 m) = (owner :: owners, None) →
  LastLive (l1 m) owner = (None, Some e) →
  ∃ reg',
    Run m reg = (Panicked nilDeref, reg')
    ∧ prometheus.count reg' "unexpectedRpcErrors"
        [bytes "l1"; bytes "LastLive"]
      = S (prometheus.count reg "unexpectedRpcErrors"
             [bytes "l1"; bytes "LastLive"])
    ∧ prometheus.gauges reg'
      = prometheus.gauges
          (prometheus.WithLabelValues "lastLiveOfAOwner"
             [common.Hex owner] reg).
Proof.
  intros Hg Hl. unfold Run. rewrite Hg.
  destruct (BlockNumber (l1 m)) as [h [eb|]];
    destruct (LivenessInterval (l1 m)) as [iv ei];
    cbn [forRange]; unfold lastLiveOf; rewrite Hl;
    unfold whenErr, errors, bind, ret, act, Uint64, panic;
    (eexists; split_and!; [reflexivity| |by rewrite !WithLabelValues_Inc]);
    rewrite WithLabelValues_count.
  - rewrite Inc_count. f_equal. by apply Inc_count_ne.
  - by rewrite Inc_count.
Qed.

Lemma Run_sets_gauges_after_error_witness :
  ∃ reg',
    Run scenario.noBlockNumber prometheus.empty = (Done tt, reg')
    ∧ prometheus.count reg' "unexpectedRpcErrors"
        [bytes "l1"; bytes "blockNumber"]
      = S (prometheus.count prometheus.empty "unexpectedRpcErrors"
             [bytes "l1"; bytes "blockNumber"])
    ∧ prometheus.gauges reg'
        !! ("intervalLiveness"%string, [bytes "interval"])
      = Some (Z.abs 8467200 mod 2 ^ 64)
    ∧ prometheus.gauges reg'
        !! ("highestBlockNumber"%string, [bytes "blockNumber"])
      = Some 0.
Proof.
  apply (Run_sets_gauges_after_error scenario.noBlockNumber
           prometheus.empty 0 (bytes "context deadline exceeded")
           [scenario.token] 8467200).
  - reflexivity.
  - reflexivity.
  - intros o _. exists 1700000000. reflexivity.
  - reflexivity.
Defined.

Lemma Run_panics_after_failed_read_witness :
  ∃ reg',
    Run scenario.noLastLive prometheus.empty = (Panicked nilDeref, reg')
    ∧ prometheus.count reg' "unexpectedRpcErrors"
        [bytes "l1"; bytes "LastLive"]
      = S (prometheus.count prometheus.empty "unexpectedRpcErrors"
             [bytes "l1"; bytes "LastLive"])
    ∧ prometheus.gauges reg'
      = prometheus.gauges
          (prometheus.WithLabelValues "lastLiveOfAOwner"
             [common.Hex scenario.token] prometheus.empty).
Proof.
  apply (Run_panics_after_failed_read scenario.noLastLive
           prometheus.empty scenario.token []
           (bytes "context deadline exceeded")).
  - reflexivity.
  - reflexivity.
Defined.

End Liveness.

Section Tip.
Import tipmon.

(** The poll of [tipmon] returns after a failed call: the error is
    counted and no gauge is set; no tick of it panics. *)
Lemma tipmon_Run_error m reg result e :
  CallContext (rpc m) = (result, Some e) →
  Run m reg
  = (Done tt,
     prometheus.Inc "unexpectedRpcErrors"
       [bytes "laggingDistance"; bytes "eth_getBlockByNumber"] reg).
Proof. intros H. unfold Run. by rewrite H. Qed.

Lemma tipmon_Run_returns m reg : ∃ reg', Run m reg = (Done tt, reg').
Proof.
  unfold Run. destruct (CallContext (rpc m)) as [result [e|]];
    by eexists.
Qed.

End Tip.

(** * More on canonical signatures *)
Section MoreSignatures.
Import regexp strings canonical global_events.

Lemma matchHere_r_word c s :
  perl_w c = false → matchHere r (c :: s) = None.
Proof. intros Hc. unfold r. cbn. by rewrite Hc. Qed.

(** X3.  Text before the signature that holds no word character, blanks
    and punctuation say, changes neither what the pattern finds nor the
    canonical form. *)
Theorem formatSignature_skips_leading pre s :
  Forall (fun c => perl_w c = false) pre →
  FindStringSubmatch r (pre ++ s) = FindStringSubmatch r s
  ∧ formatSignature (pre ++ s) = formatSignature s.
Proof.
  intros Hpre.
  assert (H : FindStringSubmatch r (pre ++ s) = FindStringSubmatch r s).
  { induction Hpre as [|c pre Hc _ IH]; [done|].
    simpl app. rewrite Find_skip by by apply matchHere_r_word. done. }
  split; [done|]. unfold formatSignature. by rewrite H.
Qed.

(** X1.  Formatting a result of [formatSignature] again returns it, for
    every input; and every result but the empty string is in canonical
    form. *)
Theorem formatSignature_fixpoint s :
  formatSignature (formatSignature s) = formatSignature s
  ∧ (formatSignature s ≠ [] → Canonical (formatSignature s)).
Proof.
  split.
  - apply formatSignature_twice.
  - apply formatSignature_Canonical.
Qed.

Lemma formatSignature_skips_leading_witness :
  FindStringSubmatch r (bytes "  - " ++ bytes "f(a b)")
  = FindStringSubmatch r (bytes "f(a b)")
  ∧ formatSignature (bytes "  - " ++ bytes "f(a b)")
    = formatSignature (bytes "f(a b)").
Proof.
  apply (formatSignature_skips_leading (bytes "  - ") (bytes "f(a b)")).
  evaluated.
Defined.

(** X4.  A signature without an opening parenthesis, without a closing one,
    or without any word character has no canonical form:
    [formatSignature] returns the empty string and [FormatAndHash]
    panics. *)
Theorem formatSignature_needs_parentheses s :
  "("%char ∉ s ∨ ")"%char ∉ s ∨ Forall (fun c => perl_w c = false) s →
  formatSignature s = []
  ∧ FormatAndHash s = Panicked "Invalid signature".
Proof.
  intros Hs.
  assert (Hnil : FindStringSubmatch r s = []).
  { destruct (Find_spec s) as [[Hnil _]|
      (pre & name & ws & params & post & -> & Hne & Hw & _ & _ & _ & _)];
      [done|exfalso].
    destruct Hs as [Hs|[Hs|Hs]].
    - apply Hs. rewrite !elem_of_app, elem_of_cons. tauto.
    - apply Hs. rewrite !elem_of_app, elem_of_cons, elem_of_app, elem_of_cons.
      tauto.
    - apply Forall_app in Hs as [_ Hs]. apply Forall_app in Hs as [Hs _].
      destruct name as [|c name]; [done|].
      inversion Hw; inversion Hs; congruence. }
  split.
  - by apply formatSignature_none.
  - by apply FormatAndHash_panic, formatSignature_none.
Qed.

Lemma formatSignature_needs_parentheses_witness :
  formatSignature (bytes "transfer(address,uint256") = []
  ∧ FormatAndHash (bytes "transfer(address,uint256")
    = Panicked "Invalid signature".
Proof.
  apply (formatSignature_needs_parentheses (bytes "transfer(address,uint256")).
  right. left. evaluated.
Defined.

(** The bytes of a rune of several bytes are all above the ASCII range, and
    an ASCII byte is its own rune. *)
Lemma decode_ascii s r w c :
  utf8.DecodeRuneInString s = (r, w) → c ∈ take w s → byteval c < 128 →
  r = byteval c.
Proof.
  destruct s as [|c0 [|c1 [|c2 [|c3 s]]]];
    unfold utf8.DecodeRuneInString, utf8.first, utf8.cont;
    repeat case_match; simplify_eq; intros [= <- <-]; simpl take;
    rewrite ?elem_of_cons, ?elem_of_nil; intros Hc ?;
    zbool; intuition (subst; try done; try lia).
Qed.

Lemma asciiSpace_IsSpace c :
  asciiSpace c = true → byteval c < 128 ∧ utf8.IsSpace (byteval c) = true.
Proof.
  unfold asciiSpace, utf8.IsSpace. intros H. zbool;
    match goal with H : byteval c = _ |- _ => rewrite H end; done.
Qed.

Lemma solid_no_asciiSpace t :
  Forall (fun rb => utf8.IsSpace rb.1 = false) (utf8.range t) →
  Forall (fun c => asciiSpace c = false) t.
Proof.
  induction t as [t IH] using list_length_ind. intros Hall.
  destruct (decide (t = [])) as [->|Ht]; [constructor|].
  destruct (utf8.DecodeRuneInString t) as [r w] eqn:Hd.
  destruct (decode_width _ _ _ Ht Hd) as [Hw1 Hw2].
  rewrite (range_unfold t r w Ht Hd) in Hall.
  inversion_clear Hall as [|? ? Hr Hrest]. simpl in Hr.
  rewrite <- (take_drop w t). apply Forall_app. split.
  - apply Forall_forall. intros c Hc.
    destruct (asciiSpace c) eqn:Hsp; [exfalso|done].
    apply asciiSpace_IsSpace in Hsp as [Hlt Hsp].
    rewrite <- (decode_ascii t r w c Hd Hc Hlt) in Hsp. congruence.
  - apply IH; [rewrite length_drop; lia|done].
Qed.

Lemma word_no_asciiSpace name :
  word name → Forall (fun c => asciiSpace c = false) name.
Proof.
  intros Hw. eapply Forall_impl; [exact Hw|]. intros c Hc.
  destruct (asciiSpace c) eqn:Hsp; [|done].
  revert Hc Hsp. unfold perl_w, asciiSpace. intros Hc Hsp. zbool; lia.
Qed.

Lemma Join_Forall (P : ascii → Prop) types sep :
  Forall (Forall P) types → Forall P sep → Forall P (Join types sep).
Proof.
  intros Hall Hsep. induction Hall as [|t ts Ht _ IH]; [constructor|].
  destruct ts as [|t' ts]; [done|]. rewrite Join_cons by done.
  by rewrite !Forall_app.
Qed.

(** X2.  Whatever the input, the result of [formatSignature] holds none of
    the six ASCII white-space characters. *)
Theorem formatSignature_no_blanks s :
  Forall (fun c => asciiSpace c = false) (formatSignature s).
Proof.
  destruct (decide (formatSignature s = [])) as [->|Hne]; [constructor|].
  destruct (formatSignature_Canonical s Hne)
    as (name & types & -> & _ & Hw & Htypes).
  rewrite !Forall_app. split_and!.
  - by apply word_no_asciiSpace.
  - by repeat constructor.
  - apply Join_Forall; [|by repeat constructor].
    eapply Forall_impl; [exact Htypes|].
    intros t ((_ & Ht) & _). by apply solid_no_asciiSpace.
  - by repeat constructor.
Qed.

(** X5.  Parameter names and spacing do not reach the topic: when each
    field of the parameter list has the matching type as its first token,
    the signature formats to [name(type1,...,typen)] and hashes to the
    topic of that canonical signature, the Keccak-256 hash of its bytes. *)
Theorem FormatAndHash_ignores_names name fields types :
  name ≠ [] → word name →
  Forall2 FirstToken fields types →
  Forall (fun f => (","%char ∉ f) ∧ (")"%char ∉ f)) fields →
  formatSignature
    (name ++ bytes "(" ++ Join fields (bytes ",") ++ bytes ")")
  = name ++ bytes "(" ++ Join types (bytes ",") ++ bytes ")"
  ∧ FormatAndHash
      (name ++ bytes "(" ++ Join fields (bytes ",") ++ bytes ")")
    = FormatAndHash
        (name ++ bytes "(" ++ Join types (bytes ",") ++ bytes ")")
  ∧ FormatAndHash
      (name ++ bytes "(" ++ Join fields (bytes ",") ++ bytes ")")
    = Done (crypto.Keccak256
              (name ++ bytes "(" ++ Join types (bytes ",") ++ bytes ")")).
Proof.
  intros Hne Hw Hft Hfree.
  assert (Hclean : CleanTypes fields types).
  { clear Hfree. induction Hft; [constructor|]. by apply clean_keep. }
  assert (Hclose : ")"%char ∉ Join fields (bytes ",")).
  { apply Join_free.
    - eapply Forall_impl; [exact Hfree|]. by intros f [_ ?].
    - by intros [?|?%elem_of_nil]%elem_of_cons. }
  assert (Hf : formatSignature
                 (name ++ bytes "(" ++ Join fields (bytes ",") ++ bytes ")")
               = name ++ bytes "(" ++ Join types (bytes ",") ++ bytes ")").
  { pose proof (formatSignature_shape name [] _ [] Hne Hw
                  ltac:(constructor) Hclose) as H.
    simpl in H. simpl. rewrite H. do 2 f_equal.
    destruct (decide (fields = [])) as [->|Hfs].
    - inversion Hft. done.
    - change (bytes ",") with [","%char]. rewrite Split_Join; [|done|].
      + symmetry. by rewrite (CleanTypes_unique _ _ Hclean).
      + eapply Forall_impl; [exact Hfree|]. by intros f [? _]. }
  assert (Hc : formatSignature
                 (name ++ bytes "(" ++ Join types (bytes ",") ++ bytes ")")
               = name ++ bytes "(" ++ Join types (bytes ",") ++ bytes ")").
  { rewrite <- Hf at 1. rewrite formatSignature_twice. exact Hf. }
  assert (Hne' : name ++ bytes "(" ++ Join types (bytes ",") ++ bytes ")"
                 ≠ []) by by destruct name.
  split_and!; [done|..].
  - unfold FormatAndHash. by rewrite Hf, Hc.
  - rewrite FormatAndHash_done by by rewrite Hf. by rewrite Hf.
Qed.

Lemma FormatAndHash_ignores_names_witness :
  formatSignature
    (bytes "transfer" ++ bytes "(" ++
     Join [bytes "address owner"; bytes " uint256 amount"] (bytes ",")
     ++ bytes ")")
  = bytes "transfer" ++ bytes "(" ++
    Join [bytes "address"; bytes "uint256"] (bytes ",") ++ bytes ")"
  ∧ FormatAndHash
      (bytes "transfer" ++ bytes "(" ++
       Join [bytes "address owner"; bytes " uint256 amount"] (bytes ",")
       ++ bytes ")")
    = FormatAndHash
        (bytes "transfer" ++ bytes "(" ++
         Join [bytes "address"; bytes "uint256"] (bytes ",") ++ bytes ")")
  ∧ FormatAndHash
      (bytes "transfer" ++ bytes "(" ++
       Join [bytes "address owner"; bytes " uint256 amount"] (bytes ",")
       ++ bytes ")")
    = Done (crypto.Keccak256
              (bytes "transfer" ++ bytes "(" ++
               Join [bytes "address"; bytes "uint256"] (bytes ",")
               ++ bytes ")")).
Proof.
  apply (FormatAndHash_ignores_names (bytes "transfer")
           [bytes "address owner"; bytes " uint256 amount"]
           [bytes "address"; bytes "uint256"]).
  - discriminate.
  - unfold word. evaluated.
  - constructor; [|constructor; [|constructor]].
    + exists [], (bytes " owner"). unfold spaces, solid, spaceFirst.
      split_and!; [reflexivity|constructor|discriminate|evaluated|
                   vm_compute; reflexivity].
    + exists (bytes " "), (bytes " amount"). unfold spaces, solid, spaceFirst.
      split_and!; [reflexivity|evaluated|discriminate|evaluated|
                   vm_compute; reflexivity].
  - evaluated.
Defined.

End MoreSignatures.

(** * The text of an address *)
Section Hexadecimal.
Import common hexadecimal.

Lemma decode_pair c (up1 up2 : bool) s :
  let hi := hexdigit (Z.shiftr (byteval c) 4) in
  let lo := hexdigit (Z.land (byteval c) 15) in
  decode ((if (57 <? byteval hi) && up1 then byteof (byteval hi - 32) else hi)
          :: (if (57 <? byteval lo) && up2 then byteof (byteval lo - 32)
              else lo) :: s)
  = c :: decode s.
Proof.
  cbn [decode]. f_equal.
  destruct up1, up2; destruct c as [[] [] [] [] [] [] [] []];
    vm_compute; reflexivity.
Qed.

Lemma decode_checksum (f : nat → Z) a n :
  decode (imap (fun i c =>
            if (57 <? byteval c) && (7 <? f (n + i)%nat)
            then byteof (byteval c - 32) else c) (hexEncode a))
  = a.
Proof.
  revert n. induction a as [|c a IH]; intros n; [done|].
  cbn [hexEncode flat_map app imap].
  rewrite (decode_pair c (7 <? f (n + 0)%nat) (7 <? f (n + 1)%nat)).
  f_equal. unfold compose.
  etrans; [|apply (IH (n + 2)%nat)]. f_equal.
  apply imap_ext. intros i x _. simpl.
  by replace (n + S (S i))%nat with (n + 2 + i)%nat by lia.
Qed.

(** The text of an address reads back as the address. *)
Lemma Hex_address a : address (Hex a) = a.
Proof.
  unfold address, Hex. cbn [bytes list_ascii_of_string app drop].
  set (hash := crypto.Keccak256 (hexEncode a)).
  pose proof (decode_checksum
    (fun i => let hashByte := byteval (default zero (hash !! (i / 2)%nat)) in
              if Nat.even i then Z.shiftr hashByte 4
              else Z.land hashByte 15) a 0) as H.
  exact H.
Qed.

Lemma Hex_inj a b : Hex a = Hex b → a = b.
Proof. intros H. by rewrite <- (Hex_address a), H, Hex_address. Qed.

End Hexadecimal.

(** * More on the event matcher *)
Section MoreMatching.
Import global_events matching.
Variable lookup : GlobalConfiguration → common.Hash → Configuration.

Lemma checkLog_sample m vLog reg :
  checkLog lookup m vLog reg
  = (Done tt,
     match sampleOf lookup m vLog with
     | Some lvs => prometheus.Set_ "eventEmitted" lvs 1 reg
     | None => reg
     end).
Proof.
  unfold checkLog, sampleOf.
  destruct (Topics vLog) as [|topic0 topics]; [done|].
  destruct (Events (lookup (globalconfig m) topic0)) as [|event0 events];
    [done|].
  simpl. by destruct (isAddressIntoConfig _ _).
Qed.

Lemma scan_samples m logs reg :
  forRange logs (checkLog lookup m) reg
  = (Done tt, setAll (omap (sampleOf lookup m) logs) reg).
Proof.
  revert reg. induction logs as [|vLog logs IH]; intros reg; [done|].
  cbn [forRange]. unfold bind. rewrite checkLog_sample, IH.
  simpl. by destruct (sampleOf lookup m vLog).
Qed.

Lemma setAll_counters lvss reg :
  prometheus.counters (setAll lvss reg) = prometheus.counters reg.
Proof.
  revert reg. induction lvss as [|lvs lvss IH]; intros reg; [done|].
  simpl. by rewrite IH.
Qed.

Lemma setAll_cons lvs lvss reg :
  setAll (lvs :: lvss) reg
  = setAll lvss (prometheus.Set_ "eventEmitted" lvs 1 reg).
Proof. reflexivity. Qed.

Lemma setAll_gauges lvss reg k :
  prometheus.gauges (setAll lvss reg) !! k
  = if decide (k.1 = "eventEmitted"%string ∧ k.2 ∈ lvss) then Some 1
    else prometheus.gauges reg !! k.
Proof.
  revert reg. induction lvss as [|lvs lvss IH]; intros reg.
  - simpl. case_decide as H; [|done]. destruct H as [_ H].
    by apply elem_of_nil in H.
  - destruct k as [vec l]. rewrite setAll_cons, IH. clear IH.
    cbn [fst snd prometheus.Set_ prometheus.gauges].
    rewrite lookup_insert.
    repeat case_decide; simplify_eq; try done; exfalso;
      rewrite ?elem_of_cons in *; intuition congruence.
Qed.

Lemma Registry_eq (r1 r2 : prometheus.Registry) :
  prometheus.gauges r1 = prometheus.gauges r2 →
  prometheus.counters r1 = prometheus.counters r2 → r1 = r2.
Proof. destruct r1, r2. simpl. by intros -> ->. Qed.

Lemma setAll_ext lvss lvss' reg :
  (∀ lvs, lvs ∈ lvss ↔ lvs ∈ lvss') → setAll lvss reg = setAll lvss' reg.
Proof.
  intros Hiff. apply Registry_eq.
  - apply map_eq. intros k. rewrite !setAll_gauges.
    repeat case_decide; try done; exfalso; destruct (Hiff k.2); tauto.
  - by rewrite !setAll_counters.
Qed.

Lemma checkEvents_fetched m reg h logs :
  HeaderByNumber (l1Client m) = (Some h, None) →
  FilterLogs (l1Client m) (mkFilterQuery (Number h) (Number h))
  = (logs, None) →
  checkEvents lookup m reg
  = (Done tt, setAll (omap (sampleOf lookup m) logs) reg).
Proof.
  intros Hh Hl. unfold checkEvents. rewrite Hh, Hl. apply scan_samples.
Qed.

(** X6.  The read of [Events[0]] in [checkEvents] is never out of range,
    whatever the client, the logs and the rules, for a lookup that is a
    function of the rules and the topic: its second call returns the
    configuration whose length the guard has tested.  Panics raised within
    the lookup or within the metrics library are not covered. *)
Theorem checkEvents_index_in_range m reg reg' :
  checkEvents lookup m reg
  ≠ (Panicked "index out of range [0] with length 0", reg').
Proof.
  unfold checkEvents.
  destruct (HeaderByNumber (l1Client m)) as [header [e|]]; [done|].
  destruct header as [h|]; [|done].
  destruct (FilterLogs (l1Client m) _) as [logs [e|]]; [done|].
  by rewrite scan_samples.
Qed.

(** X7.  A tick whose two fetches succeed changes no counter, and leaves
    every gauge sample as it was or sets a sample of [eventEmitted] to 1:
    no sample is removed or reset, one that was set stays set. *)
Theorem checkEvents_only_sets_samples m reg h logs :
  HeaderByNumber (l1Client m) = (Some h, None) →
  FilterLogs (l1Client m) (mkFilterQuery (Number h) (Number h))
  = (logs, None) →
  ∃ reg',
    checkEvents lookup m reg = (Done tt, reg')
    ∧ prometheus.counters reg' = prometheus.counters reg
    ∧ (∀ k, prometheus.gauges reg' !! k = prometheus.gauges reg !! k
            ∨ (k.1 = "eventEmitted"%string
               ∧ prometheus.gauges reg' !! k = Some 1))
    ∧ (∀ k, is_Some (prometheus.gauges reg !! k) →
            is_Some (prometheus.gauges reg' !! k)).
Proof.
  intros Hh Hl. eexists.
  split; [by apply (checkEvents_fetched m reg h logs)|].
  split_and!.
  - apply setAll_counters.
  - intros k. rewrite setAll_gauges. case_decide; [right|by left].
    tauto.
  - intros k Hk. rewrite setAll_gauges. by case_decide.
Qed.

(** X8.  The registry after a tick depends on which logs the node returned
    and not on their order or on repetitions among them. *)
Theorem checkEvents_order_free m m' reg h logs logs' :
  globalconfig m' = globalconfig m → nickname m' = nickname m →
  HeaderByNumber (l1Client m) = (Some h, None) →
  HeaderByNumber (l1Client m') = (Some h, None) →
  FilterLogs (l1Client m) (mkFilterQuery (Number h) (Number h))
  = (logs, None) →
  FilterLogs (l1Client m') (mkFilterQuery (Number h) (Number h))
  = (logs', None) →
  (∀ vLog, vLog ∈ logs ↔ vLog ∈ logs') →
  checkEvents lookup m' reg = checkEvents lookup m reg.
Proof.
  intros Hg Hn Hh Hh' Hl Hl' Hsame.
  rewrite (checkEvents_fetched m reg h logs Hh Hl).
  rewrite (checkEvents_fetched m' reg h logs' Hh' Hl').
  f_equal. apply setAll_ext. intros lvs.
  rewrite !list_elem_of_omap.
  assert (Hs : ∀ vLog, sampleOf lookup m' vLog = sampleOf lookup m vLog).
  { intros vLog. unfold sampleOf. by rewrite Hg, Hn. }
  split; intros (vLog & Hin & Hsome); exists vLog;
    (split; [by apply Hsame|]); by rewrite ?Hs in *.
Qed.

(** X9.  A second tick on the same block and logs leaves the registry as
    the first tick left it: hits overwrite and do not add up. *)
Theorem checkEvents_twice m reg h logs :
  HeaderByNumber (l1Client m) = (Some h, None) →
  FilterLogs (l1Client m) (mkFilterQuery (Number h) (Number h))
  = (logs, None) →
  (checkEvents lookup m ;; checkEvents lookup m) reg
  = checkEvents lookup m reg.
Proof.
  intros Hh Hl. unfold bind.
  rewrite (checkEvents_fetched m reg h logs Hh Hl).
  rewrite (checkEvents_fetched m _ h logs Hh Hl).
  f_equal. apply Registry_eq.
  - apply map_eq. intros k. rewrite !setAll_gauges.
    by repeat case_decide.
  - by rewrite !setAll_counters.
Qed.

(** X10.  A tick of [checkEvents] whose header fetch or log fetch fails
    returns, adds one to the counter of that stage under [L1], and leaves
    every gauge and every other counter as it was. *)
Theorem checkEvents_failed_fetch m reg stage :
  (∃ header e, HeaderByNumber (l1Client m) = (header, Some e)
               ∧ stage = bytes "HeaderByNumber")
  ∨ (∃ h logs e, HeaderByNumber (l1Client m) = (Some h, None)
                 ∧ FilterLogs (l1Client m)
                     (mkFilterQuery (Number h) (Number h))
                   = (logs, Some e)
                 ∧ stage = bytes "FilterLogs") →
  ∃ reg',
    checkEvents lookup m reg = (Done tt, reg')
    ∧ prometheus.gauges reg' = prometheus.gauges reg
    ∧ prometheus.count reg' "unexpectedRpcErrors" [bytes "L1"; stage]
      = S (prometheus.count reg "unexpectedRpcErrors" [bytes "L1"; stage])
    ∧ (∀ vec lvs,
         (vec, lvs) ≠ ("unexpectedRpcErrors"%string, [bytes "L1"; stage]) →
         prometheus.count reg' vec lvs = prometheus.count reg vec lvs).
Proof.
  intros [(header & e & Hh & ->)|(h & logs & e & Hh & Hl & ->)].
  - exists (prometheus.Inc "unexpectedRpcErrors"
              [bytes "L1"; bytes "HeaderByNumber"] reg).
    split_and!.
    + by eapply checkEvents_HeaderByNumber_error.
    + reflexivity.
    + apply Inc_count.
    + intros vec lvs Hne. by apply Inc_count_ne.
  - exists (prometheus.Inc "unexpectedRpcErrors"
              [bytes "L1"; bytes "FilterLogs"] reg).
    split_and!.
    + by eapply checkEvents_FilterLogs_error.
    + reflexivity.
    + apply Inc_count.
    + intros vec lvs Hne. by apply Inc_count_ne.
Qed.

End MoreMatching.

Section MoreScenarios.
Import global_events scenario.

Lemma checkEvents_only_sets_samples_witness :
  ∃ reg',
    checkEvents SearchIfATopicIsInsideAnAlert (monitor [transferLog])
      prometheus.empty
    = (Done tt, reg')
    ∧ prometheus.counters reg' = prometheus.counters prometheus.empty
    ∧ (∀ k, prometheus.gauges reg' !! k
            = prometheus.gauges prometheus.empty !! k
            ∨ (k.1 = "eventEmitted"%string
               ∧ prometheus.gauges reg' !! k = Some 1))
    ∧ (∀ k, is_Some (prometheus.gauges prometheus.empty !! k) →
            is_Some (prometheus.gauges reg' !! k)).
Proof.
  apply (checkEvents_only_sets_samples SearchIfATopicIsInsideAnAlert
           (monitor [transferLog]) prometheus.empty (mkHeader 100)
           [transferLog]).
  - reflexivity.
  - reflexivity.
Defined.

Lemma checkEvents_order_free_witness :
  checkEvents SearchIfATopicIsInsideAnAlert
    (monitor [anonymousLog; transferLog; transferLog]) prometheus.empty
  = checkEvents SearchIfATopicIsInsideAnAlert
      (monitor [transferLog; anonymousLog]) prometheus.empty.
Proof.
  apply (checkEvents_order_free SearchIfATopicIsInsideAnAlert
           (monitor [transferLog; anonymousLog])
           (monitor [anonymousLog; transferLog; transferLog])
           prometheus.empty (mkHeader 100)
           [transferLog; anonymousLog]
           [anonymousLog; transferLog; transferLog]).
  - reflexivity.
  - reflexivity.
  - reflexivity.
  - reflexivity.
  - reflexivity.
  - reflexivity.
  - intros vLog. rewrite !elem_of_cons, !elem_of_nil. tauto.
Defined.

Lemma checkEvents_twice_witness :
  (checkEvents SearchIfATopicIsInsideAnAlert (monitor [transferLog]) ;;
   checkEvents SearchIfATopicIsInsideAnAlert (monitor [transferLog]))
    prometheus.empty
  = checkEvents SearchIfATopicIsInsideAnAlert (monitor [transferLog])
      prometheus.empty.
Proof.
  apply (checkEvents_twice SearchIfATopicIsInsideAnAlert
           (monitor [transferLog]) prometheus.empty (mkHeader 100)
           [transferLog]).
  - reflexivity.
  - reflexivity.
Defined.

Lemma checkEvents_failed_fetch_witness :
  ∃ reg',
    checkEvents SearchIfATopicIsInsideAnAlert ticks.logsDown
      prometheus.empty
    = (Done tt, reg')
    ∧ prometheus.gauges reg' = prometheus.gauges prometheus.empty
    ∧ prometheus.count reg' "unexpectedRpcErrors"
        [bytes "L1"; bytes "FilterLogs"]
      = S (prometheus.count prometheus.empty "unexpectedRpcErrors"
             [bytes "L1"; bytes "FilterLogs"])
    ∧ (∀ vec lvs,
         (vec, lvs)
         ≠ ("unexpectedRpcErrors"%string, [bytes "L1"; bytes "FilterLogs"]) →
         prometheus.count reg' vec lvs
         = prometheus.count prometheus.empty vec lvs).
Proof.
  apply (checkEvents_failed_fetch SearchIfATopicIsInsideAnAlert
           ticks.logsDown prometheus.empty (bytes "FilterLogs")).
  right. exists (mkHeader 100), [], (bytes "context deadline exceeded").
  split_and!; reflexivity.
Defined.

End MoreScenarios.

(** * More on the poll of [liveness_expiration] *)
Section MoreLiveness.
Import liveness_expiration.

Lemma byteval_inj x y : byteval x = byteval y → x = y.
Proof.
  unfold byteval. intros H. apply N2Z.inj in H.
  by rewrite <- (ascii_N_embedding x), <- (ascii_N_embedding y), H.
Qed.

Lemma Cmp_eq a b : common.Cmp a b = 0 ↔ a = b.
Proof.
  revert b. induction a as [|x a IH]; intros [|y b]; simpl; try done.
  destruct (Z.ltb_spec (byteval x) (byteval y)); [split; [done|]|].
  { intros [= -> _]. lia. }
  destruct (Z.ltb_spec (byteval y) (byteval x)); [split; [done|]|].
  { intros [= -> _]. lia. }
  rewrite IH. assert (x = y) as -> by (apply byteval_inj; lia).
  split; [by intros ->|]. by intros [= ->].
Qed.

(** X13.  [NewMonitor] of [liveness_expiration] returns a monitor and no
    error, or an error and no monitor.  A monitor is bound to the client
    dialled and to the safe of the configuration, and none of the three
    configured addresses is the zero address; an error means that the dial
    failed, that one of the three addresses is zero, or that a binding
    failed. *)
Theorem NewMonitor_validates w cfg :
  match NewMonitor w cfg with
  | (Some m, None) =>
    Dial w (L1NodeURL cfg) = inl (l1 m)
    ∧ GnosisSafeAddress m = SafeAddress cfg
    ∧ SafeAddress cfg ≠ common.ZeroAddress
    ∧ LivenessGuardAddress cfg ≠ common.ZeroAddress
    ∧ LivenessModuleAddress cfg ≠ common.ZeroAddress
  | (None, Some err) =>
    (∃ e, Dial w (L1NodeURL cfg) = inr e)
    ∨ SafeAddress cfg = common.ZeroAddress
    ∨ LivenessGuardAddress cfg = common.ZeroAddress
    ∨ LivenessModuleAddress cfg = common.ZeroAddress
    ∨ is_Some (NewGnosisSafe w (SafeAddress cfg))
    ∨ is_Some (NewLivenessGuard w (LivenessGuardAddress cfg))
    ∨ is_Some (NewLivenessModule w (LivenessModuleAddress cfg))
  | _ => False
  end.
Proof.
  unfold NewMonitor.
  destruct (Dial w (L1NodeURL cfg)) as [c|e]; [|left; by exists e].
  destruct (Z.eqb_spec (common.Cmp (SafeAddress cfg) common.ZeroAddress) 0) as [H1|H1];
    [apply Cmp_eq in H1; tauto|].
  destruct (Z.eqb_spec (common.Cmp (LivenessGuardAddress cfg) common.ZeroAddress) 0)
    as [H2|H2]; [apply Cmp_eq in H2; tauto|].
  destruct (Z.eqb_spec (common.Cmp (LivenessModuleAddress cfg) common.ZeroAddress) 0)
    as [H3|H3]; [apply Cmp_eq in H3; tauto|].
  rewrite Cmp_eq in H1, H2, H3.
  destruct (NewGnosisSafe w _) eqn:E1; [by eauto 10|].
  destruct (NewLivenessGuard w _) eqn:E2; [by eauto 10|].
  destruct (NewLivenessModule w _) eqn:E3; [by eauto 10|].
  done.
Qed.

Lemma lastLiveOf_cases m o reg :
  (∃ v err, LastLive (l1 m) o = (Some v, err)
            ∧ ∃ reg', lastLiveOf m o reg = (Done tt, reg'))
  ∨ (∃ err, LastLive (l1 m) o = (None, err)
            ∧ ∃ reg', lastLiveOf m o reg = (Panicked nilDeref, reg')).
Proof.
  unfold lastLiveOf.
  destruct (LastLive (l1 m) o) as [[v|] [e|]];
    [left; exists v, (Some e)|left; exists v, None
     |right; exists (Some e)|right; exists None];
    (split; [done|]); by eexists.
Qed.

Lemma owners_loop_outcome m owners reg :
  (Forall (fun o => (LastLive (l1 m) o).1 ≠ None) owners
   ∧ ∃ reg', forRange owners (lastLiveOf m) reg = (Done tt, reg'))
  ∨ (¬ Forall (fun o => (LastLive (l1 m) o).1 ≠ None) owners
     ∧ ∃ reg', forRange owners (lastLiveOf m) reg
               = (Panicked nilDeref, reg')).
Proof.
  revert reg. induction owners as [|o owners IH]; intros reg.
  - left. split; [constructor|by eexists].
  - cbn [forRange]. unfold bind.
    destruct (lastLiveOf_cases m o reg)
      as [(v & err & Hv & reg1 & ->)|(err & Hv & reg1 & ->)].
    + destruct (IH reg1) as [[Hall Hrun]|[Hnot Hrun]].
      * left. split; [|done]. constructor; [by rewrite Hv|done].
      * right. split; [|done]. intros Hall. apply Hnot.
        by inversion Hall.
    + right. split; [|by eexists]. intros Hall.
      inversion Hall as [|? ? Ho _]. by rewrite Hv in Ho.
Qed.

Lemma whenErr_errors err name reg :
  ∃ reg', whenErr err (errors name) reg = (Done tt, reg').
Proof. destruct err; by eexists. Qed.

(** X11.  A tick of the liveness poll returns exactly when the read of
    [lastLive] gave a value for every owner returned and the read of the
    interval gave a value, errors or not; in every other tick it panics on
    a nil pointer. *)
Theorem Run_returns_iff_read m reg :
  let read :=
    Forall (fun o => (LastLive (l1 m) o).1 ≠ None) (GetOwners (l1 m)).1
    ∧ (LivenessInterval (l1 m)).1 ≠ None in
  ((∃ reg', Run m reg = (Done tt, reg')) ↔ read)
  ∧ ((∃ reg', Run m reg = (Panicked nilDeref, reg')) ↔ ¬ read).
Proof.
  intros read.
  assert (H : (read ∧ ∃ reg', Run m reg = (Done tt, reg'))
              ∨ (¬ read ∧ ∃ reg', Run m reg = (Panicked nilDeref, reg'))).
  { subst read. unfold Run.
    destruct (BlockNumber (l1 m)) as [h eb].
    destruct (GetOwners (l1 m)) as [owners eo]. cbn [fst].
    destruct (LivenessInterval (l1 m)) as [iv ei]. cbn [fst].
    destruct (whenErr_errors eb "blockNumber" reg) as [reg1 E1].
    rewrite (bind_done _ _ _ _ _ E1).
    destruct (whenErr_errors eo "GetOwners" reg1) as [reg2 E2].
    rewrite (bind_done _ _ _ _ _ E2).
    destruct (owners_loop_outcome m owners reg2)
      as [[Hall (reg3 & E3)]|[Hnot (reg3 & E3)]].
    - rewrite (bind_done _ _ _ _ _ E3).
      destruct (whenErr_errors ei "LivenessInterval" reg3) as [reg4 E4].
      rewrite (bind_done _ _ _ _ _ E4).
      destruct iv as [iv|].
      + left. split; [done|]. by eexists.
      + right. split; [by intros [_ ?]|]. by eexists.
    - rewrite (bind_panic _ _ _ _ _ E3).
      right. split; [tauto|]. by eexists. }
  split; split.
  - intros [reg' Hrun]. destruct H as [[? _]|[_ [reg'' H]]]; [done|].
    congruence.
  - intros Hr. destruct H as [[_ ?]|[? _]]; done.
  - intros [reg' Hrun]. destruct H as [[_ [reg'' H]]|[? _]]; [|done].
    congruence.
  - intros Hr. destruct H as [[? _]|[_ ?]]; done.
Qed.

Lemma owners_loop_gauges m owners reg :
  (∀ o, o ∈ owners → ∃ v, LastLive (l1 m) o = (Some v, None)) →
  ∃ reg',
    forRange owners (lastLiveOf m) reg = (Done tt, reg')
    ∧ prometheus.counters reg' = prometheus.counters reg
    ∧ (∀ o v, o ∈ owners → LastLive (l1 m) o = (Some v, None) →
         prometheus.gauges reg'
           !! ("lastLiveOfAOwner"%string, [common.Hex o])
         = Some (float64 (Z.abs v mod 2 ^ 64)))
    ∧ (∀ k, (∀ o, o ∈ owners →
               k ≠ ("lastLiveOfAOwner"%string, [common.Hex o])) →
         prometheus.gauges reg' !! k = prometheus.gauges reg !! k).
Proof.
  revert reg. induction owners as [|o owners IH]; intros reg Hall.
  - exists reg. split_and!; try done. intros o v Ho. by apply elem_of_nil in Ho.
  - destruct (Hall o) as [v Hv]; [by left|].
    destruct (IH (prometheus.Set_ "lastLiveOfAOwner" [common.Hex o]
                    (float64 (Z.abs v mod 2 ^ 64)) reg))
      as (reg' & Hrun & Hc & Hown & Hother).
    { intros o' Ho'. apply Hall. by right. }
    exists reg'. split_and!.
    + cbn [forRange].
      by rewrite (bind_done _ _ _ _ _ (lastLiveOf_read _ _ _ _ Hv)).
    + by rewrite Hc.
    + intros o' v' Ho' Hv'.
      destruct (decide (o' ∈ owners)) as [Hin|Hout]; [by apply Hown|].
      apply elem_of_cons in Ho' as [->|?]; [|done].
      rewrite Hv in Hv'. injection Hv' as <-.
      rewrite Hother.
      * cbn [prometheus.Set_ prometheus.gauges]. by rewrite lookup_insert_eq.
      * intros o' Ho' Heq.
        apply (f_equal (fun k : string * list (list ascii) => head k.2))
          in Heq.
        apply (inj Some), Hex_inj in Heq. by subst.
    + intros k Hk. rewrite Hother.
      * cbn [prometheus.Set_ prometheus.gauges].
        rewrite lookup_insert_ne; [done|]. intros <-.
        by apply (Hk o); [left|].
      * intros o' Ho'. apply Hk. by right.
Qed.

(** X12.  A tick of the liveness poll whose reads all succeed changes no
    counter and publishes, under the address of every owner, the
    [float64] of the low 64 bits of the absolute value of the owner's
    [lastLive]; that is [lastLive] itself when it lies between 0 and
    [2 ^ 53].  The tick then publishes the interval and the block height
    converted in the same way. *)
Theorem Run_publishes m reg h owners iv :
  BlockNumber (l1 m) = (h, None) →
  GetOwners (l1 m) = (owners, None) →
  (∀ o, o ∈ owners → ∃ v, LastLive (l1 m) o = (Some v, None)) →
  LivenessInterval (l1 m) = (Some iv, None) →
  ∃ reg',
    Run m reg = (Done tt, reg')
    ∧ prometheus.counters reg' = prometheus.counters reg
    ∧ (∀ o v, o ∈ owners → LastLive (l1 m) o = (Some v, None) →
         prometheus.gauges reg'
           !! ("lastLiveOfAOwner"%string, [common.Hex o])
         = Some (float64 (Z.abs v mod 2 ^ 64))
         ∧ (0 <= v <= 2 ^ 53 →
            prometheus.gauges reg'
              !! ("lastLiveOfAOwner"%string, [common.Hex o])
            = Some v))
    ∧ prometheus.gauges reg'
        !! ("intervalLiveness"%string, [bytes "interval"])
      = Some (float64 (Z.abs iv mod 2 ^ 64))
    ∧ prometheus.gauges reg'
        !! ("highestBlockNumber"%string, [bytes "blockNumber"])
      = Some (float64 h).
Proof.
  intros Hb Hg Hl Hi.
  destruct (owners_loop_gauges m owners reg Hl)
    as (reg1 & Hrun & Hc & Hown & _).
  eexists. split_and!.
  - unfold Run. rewrite Hb, Hg, Hi.
    unfold whenErr, bind, act, ret, Uint64. rewrite Hrun. reflexivity.
  - cbn [prometheus.Set_ prometheus.counters].
    by rewrite WithLabelValues_counters.
  - intros o v Ho Hv.
    assert (prometheus.gauges
              (prometheus.Set_ "highestBlockNumber" [bytes "blockNumber"]
                 (float64 h)
                 (prometheus.Set_ "intervalLiveness" [bytes "interval"]
                    (float64 (Z.abs iv mod 2 ^ 64))
                    (prometheus.WithLabelValues "intervalLiveness"
                       [bytes "interval"] reg1)))
              !! ("lastLiveOfAOwner"%string, [common.Hex o])
            = Some (float64 (Z.abs v mod 2 ^ 64))) as Hset.
    { cbn [prometheus.Set_ prometheus.gauges].
      rewrite !lookup_insert_ne by (intros [=]).
      rewrite WithLabelValues_lookup.
      case_decide as Hk; [by injection Hk|]. by apply Hown. }
    split; [exact Hset|]. intros Hv53. rewrite Hset. f_equal.
    change (2 ^ 53) with 9007199254740992 in Hv53.
    rewrite Z.abs_eq, Z.mod_small by
      (change (2 ^ 64) with 18446744073709551616; lia).
    apply float64_exact. change (2 ^ 53) with 9007199254740992. lia.
  - cbn [prometheus.Set_ prometheus.gauges].
    rewrite lookup_insert_ne by (intros [=]). by rewrite lookup_insert_eq.
  - cbn [prometheus.Set_ prometheus.gauges]. by rewrite lookup_insert_eq.
Qed.

(** A zero safe address is refused, with its text in the error. *)
Example NewMonitor_zero_safe :
  NewMonitor
    (mkWorld (fun _ => inl (l1 ticks.allRead))
       (fun _ => None) (fun _ => None) (fun _ => None))
    (mkCLIConfig (bytes "http://localhost:8545") common.ZeroAddress
       scenario.token scenario.token 12000)
  = (None,
     Some (bytes ("The `SafeAddress` specified is set to -> "
                  ++ "0x0000000000000000000000000000000000000000"))).
Proof. vm_compute. reflexivity. Qed.

Lemma Run_publishes_witness :
  ∃ reg',
    Run ticks.allRead prometheus.empty = (Done tt, reg')
    ∧ prometheus.counters reg' = prometheus.counters prometheus.empty
    ∧ (∀ o v, o ∈ [scenario.token] →
         LastLive (l1 ticks.allRead) o = (Some v, None) →
         prometheus.gauges reg'
           !! ("lastLiveOfAOwner"%string, [common.Hex o])
         = Some (float64 (Z.abs v mod 2 ^ 64))
         ∧ (0 <= v <= 2 ^ 53 →
            prometheus.gauges reg'
              !! ("lastLiveOfAOwner"%string, [common.Hex o])
            = Some v))
    ∧ prometheus.gauges reg'
        !! ("intervalLiveness"%string, [bytes "interval"])
      = Some (float64 (Z.abs 8467200 mod 2 ^ 64))
    ∧ prometheus.gauges reg'
        !! ("highestBlockNumber"%string, [bytes "blockNumber"])
      = Some (float64 19000000).
Proof.
  apply (Run_publishes ticks.allRead prometheus.empty 19000000
           [scenario.token] 8467200).
  - reflexivity.
  - reflexivity.
  - intros o _. exists 1700000000. reflexivity.
  - reflexivity.
Defined.

End MoreLiveness.

(** * More on the poll of [tipmon] *)
Section MoreTip.
Import tipmon.

Lemma int64_small x : - 2 ^ 63 <= x < 2 ^ 63 → int64 x = x.
Proof.
  unfold int64.
  change (2 ^ 64) with 18446744073709551616.
  change (2 ^ 63) with 9223372036854775808.
  intros Hx. destruct (Z.lt_ge_cases x 0).
  - rewrite <- (Z_mod_plus_full x 1 18446744073709551616).
    rewrite Z.mod_small by lia.
    destruct (Z.ltb_spec (x + 1 * 18446744073709551616)
                9223372036854775808); lia.
  - rewrite Z.mod_small by lia.
    destruct (Z.ltb_spec x 9223372036854775808); lia.
Qed.

(** X14.  A tick of [tipmon] that gets the block changes no counter and
    publishes, provided the time of the block and its difference to the
    clock fit 63 bits, the [float64] of the clock minus the time of the
    block, negative when the block is ahead of the clock; that is the
    difference itself when it is at most [2 ^ 53] in absolute value.  The
    tick then publishes the [float64] of the number of transactions. *)
Theorem Run_lag m reg result :
  CallContext (rpc m) = (result, None) →
  0 <= Time result < 2 ^ 63 →
  - 2 ^ 63 <= Now (rpc m) - Time result < 2 ^ 63 →
  ∃ reg',
    Run m reg = (Done tt, reg')
    ∧ prometheus.counters reg' = prometheus.counters reg
    ∧ prometheus.gauges reg' !! ("laggingDistance"%string, [bytes "latest"])
      = Some (float64 (Now (rpc m) - Time result))
    ∧ (Z.abs (Now (rpc m) - Time result) <= 2 ^ 53 →
       prometheus.gauges reg'
         !! ("laggingDistance"%string, [bytes "latest"])
       = Some (Now (rpc m) - Time result))
    ∧ prometheus.gauges reg'
        !! ("blockNumTransactions"%string, [bytes "latest"])
      = Some (float64 (Z.of_nat (length (Transactions result)))).
Proof.
  intros Hc Ht Hlag.
  assert (int64 (Now (rpc m) - int64 (Time result))
          = Now (rpc m) - Time result) as Hint.
  { rewrite (int64_small (Time result)) by lia. by rewrite int64_small. }
  eexists. split_and!.
  - unfold Run. rewrite Hc. unfold bind, act. reflexivity.
  - reflexivity.
  - cbn [prometheus.Set_ prometheus.gauges].
    rewrite lookup_insert_ne by (intros [=]). rewrite lookup_insert_eq.
    by rewrite Hint.
  - intros H53. cbn [prometheus.Set_ prometheus.gauges].
    rewrite lookup_insert_ne by (intros [=]). rewrite lookup_insert_eq.
    by rewrite Hint, float64_exact.
  - cbn [prometheus.Set_ prometheus.gauges]. by rewrite lookup_insert_eq.
Qed.

Lemma Run_lag_witness :
  ∃ reg',
    Run ticks.tip prometheus.empty = (Done tt, reg')
    ∧ prometheus.counters reg' = prometheus.counters prometheus.empty
    ∧ prometheus.gauges reg' !! ("laggingDistance"%string, [bytes "latest"])
      = Some (float64 (1700000012 - 1700000000))
    ∧ (Z.abs (1700000012 - 1700000000) <= 2 ^ 53 →
       prometheus.gauges reg'
         !! ("laggingDistance"%string, [bytes "latest"])
       = Some (1700000012 - 1700000000))
    ∧ prometheus.gauges reg'
        !! ("blockNumTransactions"%string, [bytes "latest"])
      = Some (float64 (Z.of_nat (length [bytes "0x01"; bytes "0x02"]))).
Proof.
  apply (Run_lag ticks.tip prometheus.empty
           (mkRPCBlock 1700000000 [bytes "0x01"; bytes "0x02"])).
  - reflexivity.
  - change (2 ^ 63) with 9223372036854775808. cbn. lia.
  - change (2 ^ 63) with 9223372036854775808. cbn. lia.
Defined.

(** X15.  A tick of [tipmon] whose call fails returns, adds one to the
    counter of [eth_getBlockByNumber] under [laggingDistance], and leaves
    every gauge and every other counter as it was. *)
Theorem Run_failed_call m reg result e :
  CallContext (rpc m) = (result, Some e) →
  ∃ reg',
    Run m reg = (Done tt, reg')
    ∧ prometheus.gauges reg' = prometheus.gauges reg
    ∧ prometheus.count reg' "unexpectedRpcErrors"
        [bytes "laggingDistance"; bytes "eth_getBlockByNumber"]
      = S (prometheus.count reg "unexpectedRpcErrors"
             [bytes "laggingDistance"; bytes "eth_getBlockByNumber"])
    ∧ (∀ vec lvs,
         (vec, lvs)
         ≠ ("unexpectedRpcErrors"%string,
            [bytes "laggingDistance"; bytes "eth_getBlockByNumber"]) →
         prometheus.count reg' vec lvs = prometheus.count reg vec lvs).
Proof.
  intros Hc. eexists. split_and!.
  - by eapply tipmon_Run_error.
  - reflexivity.
  - apply Inc_count.
  - intros vec lvs Hne. by apply Inc_count_ne.
Qed.

Lemma Run_failed_call_witness :
  ∃ reg',
    Run ticks.noTip prometheus.empty = (Done tt, reg')
    ∧ prometheus.gauges reg' = prometheus.gauges prometheus.empty
    ∧ prometheus.count reg' "unexpectedRpcErrors"
        [bytes "laggingDistance"; bytes "eth_getBlockByNumber"]
      = S (prometheus.count prometheus.empty "unexpectedRpcErrors"
             [bytes "laggingDistance"; bytes "eth_getBlockByNumber"])
    ∧ (∀ vec lvs,
         (vec, lvs)
         ≠ ("unexpectedRpcErrors"%string,
            [bytes "laggingDistance"; bytes "eth_getBlockByNumber"]) →
         prometheus.count reg' vec lvs
         = prometheus.count prometheus.empty vec lvs).
Proof.
  apply (Run_failed_call ticks.noTip prometheus.empty (mkRPCBlock 0 [])
           (bytes "context deadline exceeded")).
  reflexivity.
Defined.

End MoreTip.
